(** * CityBike sort/search toolkit: a shallow embedding of
    [src/citybike/algorithms.py] and the proofs of its contracts.

    How the Python is read:
    - a list is a mutable object: the state holds a store of list objects
      and the functions pass references to them, so that [list(data)],
      a slice and [[]] create objects while [append], [extend] and
      [result[j + 1] = x] change one in place;
    - an [int] is a [Z]; an index may be negative, as in Python;
    - the key function returns a key or raises; the state logs the items
      it is called on, in order;
    - a [while] loop and the recursion of [merge_sort] take fuel, and
      running out of it is an outcome of its own, so that termination is
      something to prove; a [for] loop over a [range] or over the items of
      a list that the loop body cannot change is a recursion on that
      range or list.
    All of this lives in one small monad [M]. *)

From stdpp Require Import base option list list_numbers sorting strings.
From Stdlib Require Import ZArith Lia.

Local Open Scope Z_scope.

(** ** Comparison keys *)

(** The values returned by a key function: Python's [==], [<=] and [<] on
    a totally ordered type.  [a > b] is [b < a]. *)
Class KeyOrder (K : Type) := {
  keq : K → K → bool;
  kle : K → K → bool;
  klt : K → K → bool;
  keq_spec a b : keq a b = true ↔ a = b;
  kle_total a b : kle a b = true ∨ kle b a = true;
  kle_trans a b c : kle a b = true → kle b c = true → kle a c = true;
  kle_antisym a b : kle a b = true → kle b a = true → a = b;
  klt_spec a b : klt a b = negb (kle b a);
}.

Definition kgt `{KeyOrder K} (a b : K) : bool := klt b a.

#[export] Program Instance Z_KeyOrder : KeyOrder Z :=
  {| keq := Z.eqb; kle := Z.leb; klt := Z.ltb |}.
Next Obligation. intros a b. apply Z.eqb_eq. Qed.
Next Obligation. intros a b. rewrite !Z.leb_le. lia. Qed.
Next Obligation. intros a b c. rewrite !Z.leb_le. lia. Qed.
Next Obligation. intros a b. rewrite !Z.leb_le. lia. Qed.
Next Obligation. intros a b. apply Z.ltb_antisym. Qed.

(** ** Python list primitives on list values *)

Section PyList.
Context {A : Type}.

(** [l[i]]: a negative index counts from the end; [None] is IndexError. *)
Definition norm_index (n : nat) (i : Z) : option nat :=
  if 0 <=? i then (if i <? Z.of_nat n then Some (Z.to_nat i) else None)
  else if - Z.of_nat n <=? i then Some (Z.to_nat (Z.of_nat n + i)) else None.

(** A slice bound is clamped into [0, len]. *)
Definition clamp (n : nat) (i : Z) : nat :=
  if i <? 0 then Z.to_nat (Z.max 0 (Z.of_nat n + i))
  else Z.to_nat (Z.min i (Z.of_nat n)).

(** [l[lo:hi]] with either bound possibly omitted. *)
Definition py_slice (l : list A) (lo hi : option Z) : list A :=
  let n := length l in
  let a := from_option (clamp n) 0%nat lo in
  let b := from_option (clamp n) n hi in
  take (b - a)%nat (drop a l).
End PyList.

(** [range(lo, hi)] *)
Definition py_range (lo hi : Z) : list Z := seqZ lo (hi - lo).

(** ** The monad: store of list objects, log of key calls, exceptions, fuel *)

Definition loc := nat.

Inductive exn (E : Type) :=
  | KeyRaised (e : E)   (* the exception raised by the key function *)
  | IndexError          (* list index out of range *)
  | BadRef.             (* a reference to no object; no Python program has one *)
Arguments KeyRaised {E} e.
Arguments IndexError {E}.
Arguments BadRef {E}.

Inductive outcome (E X : Type) :=
  | Ok (x : X)
  | Raise (e : exn E)
  | Timeout.            (* the fuel ran out before the call completed *)
Arguments Ok {E X} x.
Arguments Raise {E X} e.
Arguments Timeout {E X}.

Record state (A : Type) := State {
  store : list (list A);   (* the list objects, a reference is an index *)
  calls : list A;          (* the arguments of the key calls made so far *)
}.
Arguments State {A} store calls.
Arguments store {A} s.
Arguments calls {A} s.

Section Model.
Context {A K E : Type} `{KeyOrder K}.

Definition M (X : Type) : Type := state A → state A * outcome E X.

Definition ret {X} (x : X) : M X := λ st, (st, Ok x).

Definition bind {X Y} (m : M X) (f : X → M Y) : M Y := λ st,
  match m st with
  | (st', Ok x) => f x st'
  | (st', Raise e) => (st', Raise e)
  | (st', Timeout) => (st', Timeout)
  end.

Definition raise {X} (e : exn E) : M X := λ st, (st, Raise e).
Definition timeout {X} : M X := λ st, (st, Timeout).

#[local] Notation "x ← y ; z" := (bind y (λ x, z))
  (at level 20, y at level 100, z at level 200, only parsing).
#[local] Notation "y ;; z" := (bind y (λ _, z))
  (at level 100, z at level 200, only parsing, right associativity).

(** The contents of a list object. *)
Definition read (d : loc) : M (list A) := λ st,
  match store st !! d with
  | Some l => (st, Ok l)
  | None => (st, Raise BadRef)
  end.

Definition write (d : loc) (l : list A) : M unit := λ st,
  (State (<[d := l]> (store st)) (calls st), Ok tt).

(** A new list object; its reference is the next free index. *)
Definition alloc (l : list A) : M loc := λ st,
  (State (store st ++ [l]) (calls st), Ok (length (store st))).

(** [len(d)] *)
Definition len (d : loc) : M Z :=
  l ← read d; ret (Z.of_nat (length l)).

(** [d[i]] *)
Definition getitem (d : loc) (i : Z) : M A :=
  l ← read d;
  match norm_index (length l) i ≫= (l !!.) with
  | Some x => ret x
  | None => raise IndexError
  end.

(** [d[i] = x] *)
Definition setitem (d : loc) (i : Z) (x : A) : M unit :=
  l ← read d;
  match norm_index (length l) i with
  | Some n => write d (<[n := x]> l)
  | None => raise IndexError
  end.

(** [list(d)] *)
Definition list_copy (d : loc) : M loc :=
  l ← read d; alloc l.

(** [d[lo:hi]] *)
Definition slice (d : loc) (lo hi : option Z) : M loc :=
  l ← read d; alloc (py_slice l lo hi).

(** [d.append(x)] *)
Definition append (d : loc) (x : A) : M unit :=
  l ← read d; write d (l ++ [x]).

(** [d.extend(d2)] *)
Definition extend (d d2 : loc) : M unit :=
  l2 ← read d2; l ← read d; write d (l ++ l2).

Variable key : A → E + K.

(** [key(x)]: [inl e] is the key function raising [e]. *)
Definition call_key (x : A) : M K := λ st,
  (State (store st) (calls st ++ [x]),
   match key x with inl e => Raise (KeyRaised e) | inr v => Ok v end).

(** *** Merge sort *)

(** The [while i < len(left) and j < len(right)] loop of [_merge]; its
    result is the final [(i, j)]. *)
Fixpoint merge_loop (fuel : nat) (left right result : loc) (i j : Z)
    : M (Z * Z) :=
  match fuel with
  | O => timeout
  | S fuel =>
    nl ← len left;
    if i <? nl then
      nr ← len right;
      if j <? nr then
        li ← getitem left i;
        kl ← call_key li;
        rj ← getitem right j;
        kr ← call_key rj;
        if kle kl kr then
          x ← getitem left i;
          append result x;;
          merge_loop fuel left right result (i + 1) j
        else
          x ← getitem right j;
          append result x;;
          merge_loop fuel left right result i (j + 1)
      else ret (i, j)
    else ret (i, j)
  end.

(** [_merge(left, right, key)] *)
Definition _merge (fuel : nat) (left right : loc) : M loc :=
  result ← alloc [];
  ij ← merge_loop fuel left right result 0 0;
  rest_l ← slice left (Some (fst ij)) None;
  extend result rest_l;;
  rest_r ← slice right (Some (snd ij)) None;
  extend result rest_r;;
  ret result.

(** [merge_sort(data, key)] *)
Fixpoint merge_sort (fuel : nat) (data : loc) : M loc :=
  match fuel with
  | O => timeout
  | S fuel =>
    n ← len data;
    if n <=? 1 then list_copy data
    else
      let mid := n / 2 in
      lo ← slice data None (Some mid);
      left ← merge_sort fuel lo;
      hi ← slice data (Some mid) None;
      right ← merge_sort fuel hi;
      _merge fuel left right
  end.

(** *** Insertion sort *)

(** The [while j >= 0 and key(result[j]) > key(current)] loop; its result
    is the final [j]. *)
Fixpoint shift_loop (fuel : nat) (result : loc) (current : A) (j : Z)
    : M Z :=
  match fuel with
  | O => timeout
  | S fuel =>
    if 0 <=? j then
      rj ← getitem result j;
      krj ← call_key rj;
      kc ← call_key current;
      if kgt krj kc then
        x ← getitem result j;
        setitem result (j + 1) x;;
        shift_loop fuel result current (j - 1)
      else ret j
    else ret j
  end.

(** [for i in idx: body(i)] over an already built range. *)
Fixpoint for_each (idx : list Z) (body : Z → M unit) : M unit :=
  match idx with
  | [] => ret tt
  | i :: idx => body i;; for_each idx body
  end.

(** [insertion_sort(data, key)] *)
Definition insertion_sort (fuel : nat) (data : loc) : M loc :=
  result ← list_copy data;
  n ← len result;
  for_each (py_range 1 n) (λ i,
    current ← getitem result i;
    j ← shift_loop fuel result current (i - 1);
    setitem result (j + 1) current);;
  ret result.

(** *** Binary search *)

(** The [while low <= high] loop; [Some mid] is [return mid] and [None]
    the [return None] after the loop. *)
Fixpoint search_loop (fuel : nat) (sorted_data : loc) (target : K)
    (low high : Z) : M (option Z) :=
  match fuel with
  | O => timeout
  | S fuel =>
    if low <=? high then
      let mid := (low + high) / 2 in
      x ← getitem sorted_data mid;
      mid_val ← call_key x;
      if keq mid_val target then ret (Some mid)
      else if klt mid_val target then
        search_loop fuel sorted_data target (mid + 1) high
      else
        search_loop fuel sorted_data target low (mid - 1)
    else ret None
  end.

(** [binary_search(sorted_data, target, key)] *)
Definition binary_search (fuel : nat) (sorted_data : loc) (target : K)
    : M (option Z) :=
  n ← len sorted_data;
  search_loop fuel sorted_data target 0 (n - 1).

(** *** Linear search *)

(** [for i, item in enumerate(data)], from index [i] on; the key function
    cannot change [data], so the loop runs over the items it has when the
    loop starts. *)
Fixpoint scan (items : list A) (i : Z) (target : K) : M (option Z) :=
  match items with
  | [] => ret None
  | item :: items =>
    v ← call_key item;
    if keq v target then ret (Some i) else scan items (i + 1) target
  end.

(** [linear_search(data, target, key)] *)
Definition linear_search (data : loc) (target : K) : M (option Z) :=
  items ← read data;
  scan items 0 target.
End Model.

(** ** What a sort must deliver, on list values *)

Section Orders.
Context {A K : Type} `{KeyOrder K}.
Variable k : A → K.

(** [k x <= k y] *)
Definition le_by : relation A := λ x y, kle (k x) (k y) = true.

(** Non-decreasing by [k]: every adjacent pair is in order. *)
Definition ordered (l : list A) : Prop :=
  ∀ i x y, l !! i = Some x → l !! S i = Some y → kle (k x) (k y) = true.

(** The items of [l] whose key equals [t], in the order they have in [l]. *)
Definition with_key (t : K) (l : list A) : list A :=
  List.filter (λ x, keq (k x) t) l.

(** Items with equal keys keep the relative order they have in [l]. *)
Definition stable (l out : list A) : Prop :=
  ∀ t, with_key t out = with_key t l.

(** [out] is [l] sorted by [k]: the same items, in key order, those of
    equal keys in the order they have in [l]. *)
Definition sorts (l out : list A) : Prop :=
  l ≡ₚ out ∧ ordered out ∧ stable l out.

(** The merge of two lists, ties going to the left one. *)
Fixpoint merge_fun (l1 : list A) : list A → list A :=
  match l1 with
  | [] => λ l2, l2
  | x :: l1' =>
    fix go (l2 : list A) : list A :=
      match l2 with
      | [] => l1
      | y :: l2' =>
        if kle (k x) (k y) then x :: merge_fun l1' l2 else y :: go l2'
      end
  end.

(** [c] put into [p] at position [q]. *)
Definition placed (q : nat) (c : A) (p : list A) : list A :=
  take q p ++ c :: drop q p.

(** Where the shifting stops: everything right of the gap is greater than
    [c], and the item left of it, if any, is not. *)
Definition gap_at (q : nat) (c : A) (p : list A) : Prop :=
  (q ≤ length p)%nat ∧
  (∀ x, x ∈ drop q p → klt (k c) (k x) = true) ∧
  (∀ x, (q ≠ 0)%nat → p !! pred q = Some x → klt (k c) (k x) = false).
End Orders.

(** A key function and a total map that gives the keys it returns. *)
Definition agrees {A K E : Type} (key : A → E + K) (k : A → K) : Prop :=
  ∀ x v, key x = inr v → k x = v.

(** A key function that never raises. *)
Definition pure_key {A K : Type} (E : Type) (k : A → K) : A → E + K :=
  λ x, inr (k x).

(** ** Statements about runs *)

Section Triples.
Context {A K E : Type}.
Variable key : A → E + K.

(** [m], run from [st], completes: it returns a value and a state that
    satisfy [φ], or the key function raised.  It does not run out of fuel
    and fails on no index and no reference. *)
Definition spec {X} (m : @M A E X) (st : state A)
    (φ : state A → X → Prop) : Prop :=
  ∃ st' out, m st = (st', out) ∧
    match out with
    | Ok x => φ st' x
    | Raise e => ∃ x e', e = KeyRaised e' ∧ key x = inl e'
    | Timeout => False
    end.

(** The key function returns a value on [x]. *)
Definition key_ok (x : A) : Prop := ∃ v, key x = inr v.

(** The key calls [t] made by a run that ended in [out]: a call that
    raises is the last one, and its exception is the outcome. *)
Definition calls_match {X} (t : list A) (out : outcome E X) : Prop :=
  match out with
  | Raise (KeyRaised e) =>
    ∃ t0 x, t = t0 ++ [x] ∧ Forall key_ok t0 ∧ key x = inl e
  | _ => Forall key_ok t
  end.

Definition disciplined {X} (m : @M A E X) : Prop :=
  ∀ st, ∃ t, calls (m st).1 = calls st ++ t ∧ calls_match t (m st).2.

(** [m] leaves the first [n] list objects as they are, however it ends,
    and a value it returns satisfies [φ]. *)
Definition framed {X} (n : nat) (m : @M A E X) (φ : X → Prop) : Prop :=
  ∀ st, (n ≤ length (store st))%nat →
    take n (store (m st).1) = take n (store st) ∧
    ∀ x, (m st).2 = Ok x → φ x.

(** [m] creates no list and changes none, however it ends. *)
Definition reads_only {X} (m : @M A E X) : Prop :=
  ∀ st, store (m st).1 = store st.
End Triples.

(** The most probes a binary search makes in a range of [m] positions. *)
Definition probes (m : nat) : nat :=
  match m with O => O | _ => S (Nat.log2 m) end.

(** The total map read off a key function, [d] standing in where it
    raises. *)
Definition key_view {A K E : Type} (key : A → E + K) (d : K) : A → K :=
  λ x, match key x with inr v => v | inl _ => d end.

(** The key calls made between two states. *)
Definition new_calls {A : Type} (st st' : state A) : list A :=
  drop (length (calls st)) (calls st').

(** The outcome [r] of a run from [st] is the exception [e] that the key
    function raised on [x], and that call was the last key call of the
    run, all earlier ones having returned. *)
Definition propagated {A K E X : Type} (key : A → E + K) (st : state A)
    (x : A) (e : E) (r : state A * outcome E X) : Prop :=
  r.2 = Raise (KeyRaised e) ∧
  ∃ t0, calls r.1 = calls st ++ t0 ++ [x] ∧ Forall (key_ok key) t0.

(** ** The inputs of the examples *)

Definition odds : list Z := [1; 3; 5; 7; 9].

Definition tagged : list (string * Z) :=
  [("a"%string, 1); ("b"%string, 2); ("c"%string, 1)].

Definition unsorted : list (string * Z) :=
  [("x"%string, 3); ("y"%string, 1); ("z"%string, 3); ("w"%string, 2)].

(** A key function that raises on the item tagged ["z"]. *)
Definition failing_key (x : string * Z) : string + Z :=
  if String.eqb x.1 "z" then inl "bad item"%string else inr x.2.

Definition one_list {A : Type} (l : list A) : state A := State [l] [].

(** The list returned by a run of a sort, if it returned one. *)
Definition returned {A E : Type} (r : state A * outcome E loc)
    : option (list A) :=
  match r.2 with Ok l => store r.1 !! l | _ => None end.

(** ** Proofs *)

Section OrdersFacts.
Context {A K : Type} `{KeyOrder K}.
Variable k : A → K.

Lemma kle_refl (a : K) : kle a a = true.
Proof. by destruct (kle_total a a). Qed.

Lemma kle_false (a b : K) : kle a b = false → kle b a = true.
Proof. intros Hab. destruct (kle_total a b); congruence. Qed.

Lemma keq_refl (a : K) : keq a a = true.
Proof. by apply keq_spec. Qed.

Lemma keq_false (a b : K) : keq a b = false ↔ a ≠ b.
Proof.
  split.
  - intros Hf ->. by rewrite keq_refl in Hf.
  - intros Hne. destruct (keq a b) eqn:Heq; [|done].
    by apply keq_spec in Heq.
Qed.

Lemma le_by_trans : Transitive (le_by k).
Proof. intros x y z. unfold le_by. apply kle_trans. Qed.

Lemma ordered_nil : ordered k [].
Proof. intros i x y Hx. by rewrite lookup_nil in Hx. Qed.

Lemma ordered_cons_inv x l : ordered k (x :: l) → ordered k l.
Proof. intros Ho i a b Ha Hb. exact (Ho (S i) a b Ha Hb). Qed.

Lemma ordered_Sorted l : ordered k l ↔ Sorted (le_by k) l.
Proof.
  split.
  - induction l as [|x l IH]; intros Ho; [constructor|].
    constructor; [apply IH; by eapply ordered_cons_inv|].
    destruct l as [|y l]; constructor.
    exact (Ho 0%nat x y eq_refl eq_refl).
  - induction 1 as [|x l Hs IH Hhd]; [apply ordered_nil|].
    intros [|i] a b Ha Hb; simpl in *.
    + simplify_eq. destruct l; simplify_eq/=. by inversion Hhd.
    + by eapply IH.
Qed.

Lemma Sorted_strongly l : Sorted (le_by k) l → StronglySorted (le_by k) l.
Proof. apply Sorted_StronglySorted, le_by_trans. Qed.

Lemma sorted_head_le x l y :
  Sorted (le_by k) (x :: l) → y ∈ l → kle (k x) (k y) = true.
Proof.
  intros Hs%Sorted_strongly Hy. inversion Hs as [|?? _ Hall]; subst.
  rewrite List.Forall_forall in Hall. by apply Hall, list_elem_of_In.
Qed.

(** *** The merge *)

Lemma merge_fun_nil_r l : merge_fun k l [] = l.
Proof. by destruct l. Qed.

Lemma merge_fun_cons x l1 y l2 :
  merge_fun k (x :: l1) (y :: l2) =
  if kle (k x) (k y) then x :: merge_fun k l1 (y :: l2)
  else y :: merge_fun k (x :: l1) l2.
Proof. done. Qed.

Lemma merge_fun_perm l1 l2 : l1 ++ l2 ≡ₚ merge_fun k l1 l2.
Proof.
  revert l2. induction l1 as [|x l1 IH1]; [done|].
  induction l2 as [|y l2 IH2]; [by rewrite merge_fun_nil_r, app_nil_r|].
  rewrite merge_fun_cons. destruct (kle (k x) (k y)).
  - simpl. by rewrite <- IH1.
  - rewrite <- IH2. by rewrite <- Permutation_middle.
Qed.

Lemma merge_fun_hd x l1 l2 :
  HdRel (le_by k) x l1 → HdRel (le_by k) x l2 →
  HdRel (le_by k) x (merge_fun k l1 l2).
Proof.
  destruct l1 as [|a l1], l2 as [|b l2]; try done.
  intros H1 H2. rewrite merge_fun_cons.
  inversion H1; inversion H2; subst. destruct (kle (k a) (k b)); by constructor.
Qed.

Lemma merge_fun_sorted l1 l2 :
  Sorted (le_by k) l1 → Sorted (le_by k) l2 →
  Sorted (le_by k) (merge_fun k l1 l2).
Proof.
  revert l2. induction l1 as [|x l1 IH1]; [done|].
  induction l2 as [|y l2 IH2]; [done|].
  intros H1 H2. rewrite merge_fun_cons.
  destruct (kle (k x) (k y)) eqn:Hxy.
  - inversion H1; subst. constructor; [by apply IH1|].
    apply merge_fun_hd; [done|by constructor].
  - inversion H2; subst. constructor; [by apply IH2|].
    apply merge_fun_hd; [|done]. constructor. by apply kle_false.
Qed.

Lemma with_key_app t l1 l2 :
  with_key k t (l1 ++ l2) = with_key k t l1 ++ with_key k t l2.
Proof. apply List.filter_app. Qed.

Lemma with_key_none t l :
  (∀ x, x ∈ l → k x ≠ t) → with_key k t l = [].
Proof.
  induction l as [|x l IH]; [done|]. intros Hne. simpl.
  rewrite (proj2 (keq_false _ _)); [|apply Hne; left].
  apply IH. intros y Hy. apply Hne. by right.
Qed.

(** A tie is taken from the left list, so the items of one key come out
    with those of the left list first. *)
Lemma merge_fun_with_key t l1 l2 :
  Sorted (le_by k) l1 →
  with_key k t (merge_fun k l1 l2) = with_key k t l1 ++ with_key k t l2.
Proof.
  revert l2. induction l1 as [|x l1 IH1]; [done|].
  induction l2 as [|y l2 IH2]; intros H1.
  { by rewrite merge_fun_nil_r, app_nil_r. }
  rewrite merge_fun_cons. destruct (kle (k x) (k y)) eqn:Hxy.
  - inversion H1; subst. simpl. rewrite IH1 by done.
    by destruct (keq (k x) t).
  - change (with_key k t (y :: merge_fun k (x :: l1) l2))
      with (if keq (k y) t then y :: with_key k t (merge_fun k (x :: l1) l2)
            else with_key k t (merge_fun k (x :: l1) l2)).
    rewrite IH2 by done.
    change (with_key k t (y :: l2))
      with (if keq (k y) t then y :: with_key k t l2 else with_key k t l2).
    destruct (keq (k y) t) eqn:Hy; [|done].
    apply keq_spec in Hy. subst t.
    rewrite (with_key_none (k y) (x :: l1)); [done|].
    intros z Hz Heq. assert (kle (k x) (k z) = true) as Hxz.
    { apply elem_of_cons in Hz as [->|Hz]; [apply kle_refl|].
      by eapply sorted_head_le. }
    rewrite Heq in Hxz. congruence.
Qed.
Lemma elem_of_with_key t l x : x ∈ with_key k t l ↔ x ∈ l ∧ k x = t.
Proof.
  unfold with_key. by rewrite !list_elem_of_In, List.filter_In, keq_spec.
Qed.

Lemma with_key_cons t x l :
  with_key k t (x :: l) =
  if keq (k x) t then x :: with_key k t l else with_key k t l.
Proof. done. Qed.

Lemma klt_true (a b : K) : klt a b = true → kle a b = true ∧ a ≠ b.
Proof.
  rewrite klt_spec, negb_true_iff. intros Hba. split; [by apply kle_false|].
  intros ->. by rewrite kle_refl in Hba.
Qed.

Lemma klt_false (a b : K) : klt a b = false → kle b a = true.
Proof. rewrite klt_spec, negb_false_iff. done. Qed.

Lemma sorted_lookup_le l i j x y :
  Sorted (le_by k) l → l !! i = Some x → l !! j = Some y → (i ≤ j)%nat →
  kle (k x) (k y) = true.
Proof.
  intros Hs. revert i j. induction Hs as [|a l Hs IH Hhd]; intros i j Hi Hj Hij.
  { by rewrite lookup_nil in Hi. }
  destruct i as [|i], j as [|j]; simplify_eq/=; try lia.
  - apply kle_refl.
  - eapply sorted_head_le; [by constructor|]. by eapply list_elem_of_lookup_2.
  - eapply IH; [done..|lia].
Qed.

(** Two lists in key order that are stable rearrangements of one another
    are the same list. *)
Lemma sorted_stable_unique l1 l2 :
  Sorted (le_by k) l1 → Sorted (le_by k) l2 →
  (∀ t, with_key k t l1 = with_key k t l2) → l1 = l2.
Proof.
  assert (∀ x l y l', Sorted (le_by k) (y :: l') →
    (∀ t, with_key k t (x :: l) = with_key k t (y :: l')) →
    kle (k y) (k x) = true) as Hhead.
  { intros x l y l' Hs Heq.
    assert (x ∈ with_key k (k x) (y :: l')) as [Hin _]%elem_of_with_key.
    { rewrite <- Heq. apply elem_of_with_key. split; [left|done]. }
    apply elem_of_cons in Hin as [->|Hin]; [apply kle_refl|].
    by eapply sorted_head_le. }
  revert l2. induction l1 as [|x l1 IH]; intros [|y l2] H1 H2 Heq; [done|..].
  - specialize (Heq (k y)). rewrite with_key_cons, keq_refl in Heq. done.
  - specialize (Heq (k x)). rewrite with_key_cons, keq_refl in Heq. done.
  - assert (k x = k y) as Hk.
    { apply kle_antisym; [eapply Hhead|eapply Hhead]; eauto. }
    assert (x = y) as ->.
    { specialize (Heq (k x)). rewrite !with_key_cons in Heq.
      rewrite <- Hk, keq_refl in Heq. congruence. }
    f_equal. apply IH; [by inversion H1|by inversion H2|].
    intros t. specialize (Heq t). rewrite !with_key_cons in Heq.
    destruct (keq (k y) t); congruence.
Qed.

Lemma sorts_short l : (length l ≤ 1)%nat → sorts k l l.
Proof.
  intros Hl. split_and!; [done| |done].
  intros i x y Hx Hy. apply lookup_lt_Some in Hy. lia.
Qed.

Lemma sorts_merge l1 l2 out1 out2 :
  sorts k l1 out1 → sorts k l2 out2 →
  sorts k (l1 ++ l2) (merge_fun k out1 out2).
Proof.
  intros (Hp1 & Ho1%ordered_Sorted & Hs1) (Hp2 & Ho2%ordered_Sorted & Hs2).
  split_and!.
  - by rewrite Hp1, Hp2, merge_fun_perm.
  - by apply ordered_Sorted, merge_fun_sorted.
  - intros t. rewrite merge_fun_with_key by done.
    by rewrite with_key_app, Hs1, Hs2.
Qed.

(** *** Putting one item in its place *)

Lemma placed_perm q c (p : list A) : placed q c p ≡ₚ p ++ [c].
Proof.
  unfold placed. rewrite <- Permutation_middle, take_drop.
  by rewrite <- Permutation_cons_append.
Qed.

Lemma placed_sorted q c p :
  Sorted (le_by k) p →
  (∀ x, x ∈ take q p → kle (k x) (k c) = true) →
  (∀ x, x ∈ drop q p → kle (k c) (k x) = true) →
  Sorted (le_by k) (placed q c p).
Proof.
  intros Hs%Sorted_strongly Hl Hr. apply StronglySorted_Sorted.
  rewrite <- (take_drop q p) in Hs.
  apply StronglySorted_app in Hs as (Hlr & Hs1 & Hs2).
  unfold placed. apply StronglySorted_app_2; [|done|].
  - intros x1 x2 Hx1 [->|Hx2]%elem_of_cons; [by apply Hl|by apply Hlr].
  - constructor; [done|]. apply List.Forall_forall. intros x Hx.
    by apply Hr, list_elem_of_In.
Qed.

Lemma placed_with_key q c p t :
  (∀ x, x ∈ drop q p → k x ≠ k c) →
  with_key k t (placed q c p) = with_key k t (p ++ [c]).
Proof.
  intros Hne. unfold placed.
  rewrite !with_key_app, !with_key_cons. simpl.
  rewrite <- (take_drop q p) at 4. rewrite with_key_app, <- app_assoc.
  f_equal. destruct (keq (k c) t) eqn:Hc; [|by rewrite app_nil_r].
  apply keq_spec in Hc. subst t.
  by rewrite (with_key_none _ (drop q p)) by done.
Qed.

Lemma gap_at_sorts q c p t :
  Sorted (le_by k) p → gap_at k q c p →
  Sorted (le_by k) (placed q c p) ∧
  with_key k t (placed q c p) = with_key k t (p ++ [c]).
Proof.
  intros Hs (Hq & Hr & Hl). split.
  - apply placed_sorted; [done| |].
    + intros x (i & Hi & Hlt)%elem_of_take.
      destruct (lookup_lt_is_Some_2 p (pred q)) as [y Hy].
      { apply lookup_lt_Some in Hi. lia. }
      eapply kle_trans; [|apply klt_false, (Hl y); [lia|done]].
      eapply sorted_lookup_le; [done..|lia].
    + intros x Hx. by apply klt_true, Hr.
  - apply placed_with_key. intros x Hx Heq.
    apply Hr, klt_true in Hx as [_ Hne]. congruence.
Qed.
End OrdersFacts.


(** ** Running the primitives *)

Section Run.
Context {A K E : Type} `{KeyOrder K}.
Variable key : A → E + K.
Implicit Types (st : state A) (d : loc) (l : list A).

#[local] Abbreviation M := (@M A E).

Lemma run_read {Y} d l (f : list A → M Y) s c :
  s !! d = Some l → bind (read d) f (State s c) = f l (State s c).
Proof. intros Hd. unfold bind, read. simpl. by rewrite Hd. Qed.

Lemma run_len {Y} d l (f : Z → M Y) s c :
  s !! d = Some l →
  bind (len d) f (State s c) = f (Z.of_nat (length l)) (State s c).
Proof. intros Hd. unfold len, bind, read, ret. simpl. by rewrite Hd. Qed.

Lemma norm_index_nat (n i : nat) :
  (i < n)%nat → norm_index n (Z.of_nat i) = Some i.
Proof.
  intros Hi. unfold norm_index.
  destruct (Z.leb_spec 0 (Z.of_nat i)); [|lia].
  destruct (Z.ltb_spec (Z.of_nat i) (Z.of_nat n)); [|lia].
  by rewrite Nat2Z.id.
Qed.

Lemma run_getitem {Y} d l (i : Z) (n : nat) x (f : A → M Y) s c :
  s !! d = Some l → l !! n = Some x → i = Z.of_nat n →
  bind (getitem d i) f (State s c) = f x (State s c).
Proof.
  intros Hd Hn ->. unfold getitem, bind, read. simpl. rewrite Hd.
  rewrite norm_index_nat by (by eapply lookup_lt_Some). simpl. by rewrite Hn.
Qed.

Lemma run_setitem {Y} d l (i : Z) (n : nat) x (f : unit → M Y) s c :
  s !! d = Some l → (n < length l)%nat → i = Z.of_nat n →
  bind (setitem d i x) f (State s c) =
  f tt (State (<[d := <[n := x]> l]> s) c).
Proof.
  intros Hd Hn ->. unfold setitem, bind, read. simpl. rewrite Hd.
  by rewrite norm_index_nat.
Qed.

Lemma run_alloc {Y} l (f : loc → M Y) s c :
  bind (alloc l) f (State s c) = f (length s) (State (s ++ [l]) c).
Proof. done. Qed.

Lemma run_slice {Y} d l lo hi (f : loc → M Y) s c :
  s !! d = Some l →
  bind (slice d lo hi) f (State s c) =
  f (length s) (State (s ++ [py_slice l lo hi]) c).
Proof. intros Hd. unfold slice, bind, read, alloc. simpl. by rewrite Hd. Qed.

Lemma run_append {Y} d l x (f : unit → M Y) s c :
  s !! d = Some l →
  bind (append d x) f (State s c) = f tt (State (<[d := l ++ [x]]> s) c).
Proof. intros Hd. unfold append, bind, read, write. simpl. by rewrite Hd. Qed.

Lemma run_extend {Y} d d2 l l2 (f : unit → M Y) s c :
  s !! d = Some l → s !! d2 = Some l2 →
  bind (extend d d2) f (State s c) = f tt (State (<[d := l ++ l2]> s) c).
Proof.
  intros Hd Hd2. unfold extend, bind, read, write. simpl.
  rewrite Hd2. simpl. by rewrite Hd.
Qed.

Lemma run_call_key {Y} x v (f : K → M Y) s c :
  key x = inr v →
  bind (call_key key x) f (State s c) = f v (State s (c ++ [x])).
Proof. intros Hk. unfold bind, call_key. simpl. by rewrite Hk. Qed.

Lemma run_call_key_raise {Y} x e (f : K → M Y) s c :
  key x = inl e →
  bind (call_key key x) f (State s c) =
  (State s (c ++ [x]), Raise (KeyRaised e)).
Proof. intros Hk. unfold bind, call_key. simpl. by rewrite Hk. Qed.

Lemma py_slice_from l (i : nat) :
  (i ≤ length l)%nat → py_slice l (Some (Z.of_nat i)) None = drop i l.
Proof.
  intros Hi. unfold py_slice, clamp. simpl.
  destruct (Z.ltb_spec (Z.of_nat i) 0); [lia|].
  rewrite Z.min_l by lia. rewrite Nat2Z.id.
  apply take_ge. rewrite length_drop. lia.
Qed.

Lemma py_slice_to l (i : nat) :
  (i ≤ length l)%nat → py_slice l None (Some (Z.of_nat i)) = take i l.
Proof.
  intros Hi. unfold py_slice, clamp. simpl.
  destruct (Z.ltb_spec (Z.of_nat i) 0); [lia|].
  rewrite Z.min_l by lia. rewrite Nat2Z.id. f_equal. lia.
Qed.

Lemma run_list_copy {Y} d l (f : loc → M Y) s c :
  s !! d = Some l →
  bind (list_copy d) f (State s c) = f (length s) (State (s ++ [l]) c).
Proof. intros Hd. unfold list_copy, bind, read, alloc. simpl. by rewrite Hd. Qed.

Lemma bind_assoc {X Y Z'} (m : M X) (f : X → M Y) (g : Y → M Z') st :
  bind (bind m f) g st = bind m (λ x, bind (f x) g) st.
Proof. unfold bind. by destruct (m st) as [st' [x|e|]]. Qed.

Lemma insert_at_end {B} (s : list B) a b t :
  <[length s := b]> (s ++ a :: t) = s ++ b :: t.
Proof.
  rewrite insert_app_r_alt by lia. by rewrite Nat.sub_diag.
Qed.

Lemma insert_at_take {B} (p : list B) q a b t :
  (q ≤ length p)%nat → <[q := b]> (take q p ++ a :: t) = take q p ++ b :: t.
Proof.
  intros Hq. rewrite <- (insert_at_end (take q p) a b t).
  by rewrite length_take, Nat.min_l.
Qed.

(** *** Composing statements *)

Lemma spec_ret {X} (x : X) st (φ : state A → X → Prop) :
  φ st x → spec key (ret x) st φ.
Proof. intros Hφ. by exists st, (Ok x). Qed.

Lemma spec_bind {X Y} (m : M X) (f : X → M Y) st φ ψ :
  spec key m st φ →
  (∀ st' x, φ st' x → spec key (f x) st' ψ) →
  spec key (bind m f) st ψ.
Proof.
  intros (st1 & out & Hm & Hout) Hf. unfold spec, bind. rewrite Hm.
  destruct out as [x|e|]; [by apply Hf| |done].
  by exists st1, (Raise e).
Qed.

Lemma spec_mono {X} (m : M X) st (φ ψ : state A → X → Prop) :
  spec key m st φ → (∀ st' x, φ st' x → ψ st' x) → spec key m st ψ.
Proof.
  intros (st1 & out & Hm & Hout) Himp. exists st1, out. split; [done|].
  destruct out; auto.
Qed.

Lemma spec_raised {X} (m : M X) st st' x e (φ : state A → X → Prop) :
  m st = (st', Raise (KeyRaised e)) → key x = inl e → spec key m st φ.
Proof. intros Hm Hk. exists st', (Raise (KeyRaised e)). eauto. Qed.
End Run.

(** ** Merge sort *)

Section MergeSort.
Context {A K E : Type} `{KeyOrder K}.
Variables (key : A → E + K) (k : A → K).
Hypothesis Hagree : agrees key k.

Lemma merge_loop_spec fuel :
  ∀ (left right result : loc) (L R Res : list A) (i j : nat) s c,
  s !! left = Some L → s !! right = Some R → s !! result = Some Res →
  left ≠ result → right ≠ result →
  (i ≤ length L)%nat → (j ≤ length R)%nat →
  ((length L - i) + (length R - j) < fuel)%nat →
  spec key
    (merge_loop key fuel left right result (Z.of_nat i) (Z.of_nat j))
    (State s c)
    (λ st' ij, ∃ pre (i' j' : nat),
      ij = (Z.of_nat i', Z.of_nat j') ∧
      (i' ≤ length L)%nat ∧ (j' ≤ length R)%nat ∧
      store st' = <[result := Res ++ pre]> s ∧
      pre ++ drop i' L ++ drop j' R = merge_fun k (drop i L) (drop j R)).
Proof.
  induction fuel as [|fuel IH];
    intros left right result L R Res i j s c HL HR HRes Hl Hr Hi Hj Hfuel;
    [lia|].
  assert (s = <[result := Res ++ []]> s) as Hid.
  { rewrite app_nil_r. by rewrite list_insert_id. }
  unfold spec. cbn [merge_loop]. rewrite (run_len _ _ _ _ _ HL).
  destruct (Z.ltb_spec (Z.of_nat i) (Z.of_nat (length L))) as [Hil|Hil].
  2: { exists (State s c), (Ok (Z.of_nat i, Z.of_nat j)). split; [done|].
       exists [], i, j. split_and!; [done..|].
       by rewrite (drop_ge L i) by lia. }
  rewrite (run_len _ _ _ _ _ HR).
  destruct (Z.ltb_spec (Z.of_nat j) (Z.of_nat (length R))) as [Hjl|Hjl].
  2: { exists (State s c), (Ok (Z.of_nat i, Z.of_nat j)). split; [done|].
       exists [], i, j. split_and!; [done..|].
       rewrite (drop_ge R j) by lia.
       by rewrite merge_fun_nil_r, app_nil_r. }
  destruct (lookup_lt_is_Some_2 L i) as [x Hx]; [lia|].
  destruct (lookup_lt_is_Some_2 R j) as [y Hy]; [lia|].
  rewrite (run_getitem _ _ _ _ _ _ _ _ HL Hx eq_refl).
  destruct (key x) as [e|v] eqn:Hkx.
  { eapply spec_raised; [by apply run_call_key_raise|done]. }
  rewrite (run_call_key _ _ _ _ _ _ Hkx). apply Hagree in Hkx as <-.
  rewrite (run_getitem _ _ _ _ _ _ _ _ HR Hy eq_refl).
  destruct (key y) as [e|v] eqn:Hky.
  { eapply spec_raised; [by apply run_call_key_raise|done]. }
  rewrite (run_call_key _ _ _ _ _ _ Hky). apply Hagree in Hky as <-.
  rewrite (drop_S _ _ _ Hx), (drop_S _ _ _ Hy), merge_fun_cons.
  assert (result < length s)%nat as Hlt by (by eapply lookup_lt_Some).
  destruct (kle (k x) (k y)).
  - rewrite (run_getitem _ _ _ _ _ _ _ _ HL Hx eq_refl).
    rewrite (run_append _ _ _ _ _ _ HRes).
    replace (Z.of_nat i + 1) with (Z.of_nat (S i)) by lia.
    eapply spec_mono.
    + apply (IH left right result L R (Res ++ [x]) (S i) j);
        rewrite ?list_lookup_insert_ne, ?list_lookup_insert_eq by done;
        first [done|lia].
    + intros st' [i' j'] (pre & i2 & j2 & Hij & Hi2 & Hj2 & Hst & Hpre).
      exists (x :: pre), i2, j2. split_and!; [done..| |].
      * rewrite Hst, list_insert_insert_eq. by rewrite <- app_assoc.
      * simpl. by rewrite Hpre, (drop_S _ _ _ Hy).
  - rewrite (run_getitem _ _ _ _ _ _ _ _ HR Hy eq_refl).
    rewrite (run_append _ _ _ _ _ _ HRes).
    replace (Z.of_nat j + 1) with (Z.of_nat (S j)) by lia.
    eapply spec_mono.
    + apply (IH left right result L R (Res ++ [y]) i (S j));
        rewrite ?list_lookup_insert_ne, ?list_lookup_insert_eq by done;
        first [done|lia].
    + intros st' [i' j'] (pre & i2 & j2 & Hij & Hi2 & Hj2 & Hst & Hpre).
      exists (y :: pre), i2, j2. split_and!; [done..| |].
      * rewrite Hst, list_insert_insert_eq. by rewrite <- app_assoc.
      * simpl. by rewrite Hpre, (drop_S _ _ _ Hx).
Qed.
Lemma _merge_spec fuel (left right : loc) (L R : list A) s c :
  s !! left = Some L → s !! right = Some R →
  (length L + length R < fuel)%nat →
  spec key (_merge key fuel left right) (State s c)
    (λ st' r, r = length s ∧
      ∃ junk, store st' = s ++ merge_fun k L R :: junk).
Proof.
  intros HL HR Hfuel. unfold _merge. unfold spec. rewrite run_alloc.
  eapply spec_bind.
  { apply (merge_loop_spec fuel left right (length s) L R [] 0 0).
    - by apply lookup_app_l_Some.
    - by apply lookup_app_l_Some.
    - by apply list_lookup_middle.
    - apply lookup_lt_Some in HL. lia.
    - apply lookup_lt_Some in HR. lia.
    - lia.
    - lia.
    - lia. }
  intros [s' c'] [i' j'] (pre & i2 & j2 & [= -> ->] & Hi2 & Hj2 & Hst & Hpre).
  simpl in Hst. subst s'. rewrite insert_at_end. simpl.
  rewrite !drop_0 in Hpre.
  unfold spec.
  rewrite (run_slice left L) by (by apply lookup_app_l_Some).
  rewrite py_slice_from by done.
  rewrite (run_extend (length s) (length (s ++ [pre])) pre (drop i2 L)).
  2: { rewrite <- app_assoc. by apply list_lookup_middle. }
  2: { by apply list_lookup_middle. }
  rewrite <- app_assoc. simpl. rewrite insert_at_end.
  rewrite (run_slice right R) by (by apply lookup_app_l_Some).
  rewrite py_slice_from by done.
  rewrite (run_extend (length s) _ (pre ++ drop i2 L) (drop j2 R)).
  2: { rewrite <- app_assoc. by apply list_lookup_middle. }
  2: { by apply list_lookup_middle. }
  rewrite <- !app_assoc. simpl. rewrite insert_at_end.
  eexists _, _. split; [done|]. simpl. split; [done|].
  eexists. by rewrite Hpre.
Qed.
Lemma merge_sort_spec fuel :
  ∀ (data : loc) (S : list A) s c,
  s !! data = Some S → (length S + 2 ≤ fuel)%nat →
  spec key (merge_sort key fuel data) (State s c)
    (λ st' r, ∃ out,
      s `prefix_of` store st' ∧ (length s ≤ r)%nat ∧
      store st' !! r = Some out ∧ sorts k S out).
Proof.
  induction fuel as [|fuel IH]; intros data S s c Hd Hfuel; [lia|].
  cbn [merge_sort]. unfold spec. rewrite (run_len _ _ _ _ _ Hd).
  destruct (Z.leb_spec (Z.of_nat (length S)) 1) as [Hn|Hn].
  { unfold list_copy. rewrite (run_read _ _ _ _ _ Hd).
    eexists _, _. split; [done|]. exists S. simpl. split_and!.
    - by apply prefix_app_r.
    - done.
    - by apply list_lookup_middle.
    - apply sorts_short. lia. }
  rewrite <- (Nat2Z.inj_div _ 2). set (m := (length S / 2)%nat).
  assert (0 < m < length S)%nat as Hm.
  { subst m. split.
    - apply Nat.div_str_pos. lia.
    - apply Nat.div_lt; lia. }
  rewrite (run_slice _ _ _ _ _ _ _ Hd), py_slice_to by lia.
  eapply spec_bind.
  { apply (IH (length s) (take m S)); [by apply list_lookup_middle|].
    rewrite length_take. lia. }
  intros [s1 c1] left (outL & Hpre1 & Hge1 & HoL & HsL). simpl in *.
  assert (s `prefix_of` s1) as Hpre1' by (by eapply prefix_app_l).
  unfold spec.
  rewrite (run_slice data S) by (by eapply prefix_lookup_Some).
  rewrite py_slice_from by lia.
  eapply spec_bind.
  { apply (IH (length s1) (drop m S)); [by apply list_lookup_middle|].
    rewrite length_drop. lia. }
  intros [s2 c2] right (outR & Hpre2 & Hge2 & HoR & HsR). simpl in *.
  assert (s1 `prefix_of` s2) as Hpre2' by (by eapply prefix_app_l).
  eapply spec_mono.
  { apply (_merge_spec fuel left right outL outR).
    - by eapply prefix_lookup_Some.
    - done.
    - destruct HsL as (HpL & _), HsR as (HpR & _).
      rewrite <- HpL, <- HpR, length_take, length_drop. lia. }
  intros [s3 c3] r (-> & junk & Hst). simpl in *. subst s3.
  exists (merge_fun k outL outR). split_and!.
  - apply prefix_app_r. by etrans.
  - apply prefix_length in Hpre1', Hpre2'. lia.
  - by apply list_lookup_middle.
  - rewrite <- (take_drop m S) at 1. by apply sorts_merge.
Qed.
End MergeSort.


(** ** Insertion sort *)

Section InsertionSort.
Context {A K E : Type} `{KeyOrder K}.
Variables (key : A → E + K) (k : A → K).
Hypothesis Hagree : agrees key k.

(** While the loop runs, [result] holds the sorted prefix [p] with a gap
    at [q], the items right of the gap already moved one place up. *)
Lemma shift_loop_spec fuel :
  ∀ (result : loc) (cur h : A) (p rest : list A) (q : nat) s c,
  s !! result = Some (take q p ++ h :: drop q p ++ rest) →
  (q ≤ length p)%nat →
  (∀ x, x ∈ drop q p → klt (k cur) (k x) = true) →
  (q < fuel)%nat →
  spec key (shift_loop key fuel result cur (Z.of_nat q - 1)) (State s c)
    (λ st' j, ∃ (q' : nat) (h' : A),
      j = Z.of_nat q' - 1 ∧
      store st' = <[result := take q' p ++ h' :: drop q' p ++ rest]> s ∧
      gap_at k q' cur p).
Proof.
  induction fuel as [|fuel IH];
    intros result cur h p rest q s c Hres Hq Hgt Hfuel; [lia|].
  cbn [shift_loop]. unfold spec.
  destruct (Z.leb_spec 0 (Z.of_nat q - 1)) as [Hpos|Hneg].
  2: { eexists _, _. split; [done|]. exists q, h. split_and!; [done| |].
       - simpl. by rewrite list_insert_id.
       - split_and!; [done..|]. intros x Hq0. lia. }
  destruct q as [|q]; [lia|].
  destruct (lookup_lt_is_Some_2 p q) as [x Hx]; [lia|].
  assert ((take (S q) p ++ h :: drop (S q) p ++ rest) !! q = Some x) as Hx'.
  { rewrite lookup_app_l by (rewrite length_take; lia).
    rewrite lookup_take_lt by lia. done. }
  rewrite (run_getitem _ _ _ _ _ _ _ _ Hres Hx') by lia.
  destruct (key x) as [e|v] eqn:Hkx.
  { eapply spec_raised; [by apply run_call_key_raise|done]. }
  rewrite (run_call_key _ _ _ _ _ _ Hkx). apply Hagree in Hkx as <-.
  destruct (key cur) as [e|v] eqn:Hkc.
  { eapply spec_raised; [by apply run_call_key_raise|done]. }
  rewrite (run_call_key _ _ _ _ _ _ Hkc). apply Hagree in Hkc as <-.
  unfold kgt. destruct (klt (k cur) (k x)) eqn:Hlt.
  - rewrite (run_getitem _ _ _ _ _ _ _ _ Hres Hx') by lia.
    rewrite (run_setitem _ _ _ (S q) _ _ _ _ Hres).
    2: { rewrite length_app, length_take, length_cons. lia. }
    2: lia.
    rewrite insert_at_take by done.
    replace (Z.of_nat (S q) - 1 - 1) with (Z.of_nat q - 1) by lia.
    eapply spec_mono.
    + apply (IH result cur x p rest q); [|lia| |lia].
      * rewrite list_lookup_insert_eq by (by eapply lookup_lt_Some).
        rewrite (take_S_r _ _ _ Hx), (drop_S _ _ _ Hx).
        by rewrite <- app_assoc.
      * intros y. rewrite (drop_S _ _ _ Hx).
        intros [->|Hy]%elem_of_cons; [done|by apply Hgt].
    + intros st' j (q' & h' & -> & Hst & Hgap). exists q', h'.
      split_and!; [done| |done]. by rewrite Hst, list_insert_insert_eq.
  - eexists _, _. split; [done|]. exists (S q), h. split_and!; [done| |].
    + simpl. by rewrite list_insert_id.
    + split_and!; [done..|]. simpl. intros y _ Hy. congruence.
Qed.
(** The [for] loop, at the moment [result] holds the sorted prefix [p]
    followed by the items [rest] still to be placed. *)
Lemma insertion_loop_spec fuel (result : loc) :
  ∀ (rest p : list A) s c,
  s !! result = Some (p ++ rest) →
  Sorted (le_by k) p →
  (length p + length rest ≤ fuel)%nat →
  spec key
    (for_each (seqZ (Z.of_nat (length p)) (Z.of_nat (length rest)))
      (λ i,
        bind (getitem result i) (λ current,
        bind (shift_loop key fuel result current (i - 1)) (λ j,
        setitem result (j + 1) current))))
    (State s c)
    (λ st' _, ∃ out,
      store st' = <[result := out]> s ∧ sorts k (p ++ rest) out).
Proof.
  induction rest as [|cur rest IH]; intros p s c Hres Hp Hfuel.
  { apply spec_ret. exists p. rewrite app_nil_r in *. split.
    - simpl. by rewrite list_insert_id.
    - split_and!; [done|by apply ordered_Sorted|done]. }
  rewrite seqZ_cons by (simpl; lia). cbn [for_each].
  unfold spec. rewrite !bind_assoc.
  rewrite (run_getitem _ _ _ (length p) cur _ _ _ Hres);
    [|by apply list_lookup_middle|done].
  rewrite bind_assoc. eapply spec_bind.
  { apply (shift_loop_spec fuel result cur cur p rest
      (length p)); [|done| |simpl in Hfuel; lia].
    - by rewrite take_ge, drop_ge by lia.
    - intros x. rewrite drop_ge by lia. by intros ?%elem_of_nil. }
  intros [s1 c1] j (q & h & -> & Hst & Hgap). simpl in Hst. subst s1.
  assert (result < length s)%nat as Hlt by (by eapply lookup_lt_Some).
  unfold spec.
  rewrite (run_setitem _ (take q p ++ h :: drop q p ++ rest) _ q).
  2: { by apply list_lookup_insert_eq. }
  2: { rewrite length_app, length_take, length_cons. destruct Hgap. lia. }
  2: lia.
  rewrite insert_at_take by (by destruct Hgap).
  rewrite list_insert_insert_eq.
  destruct (gap_at_sorts k q cur p (k cur) Hp Hgap) as [Hsorted _].
  pose proof (placed_perm q cur p) as Hperm.
  eapply spec_mono.
  - replace (Z.succ (Z.of_nat (length p)))
      with (Z.of_nat (length (placed q cur p))).
    2: { rewrite Hperm, length_app. simpl. lia. }
    replace (Z.pred (Z.of_nat (length (cur :: rest))))
      with (Z.of_nat (length rest)) by (simpl; lia).
    apply (IH (placed q cur p)); [|done|].
    + rewrite list_lookup_insert_eq by done. unfold placed.
      by rewrite <- app_assoc.
    + rewrite Hperm, length_app. simpl in *. lia.
  - intros st' _ (out & Hst & Hperm' & Hord & Hstable). exists out. split.
    { by rewrite Hst, list_insert_insert_eq. }
    split_and!.
    + rewrite <- Hperm', Hperm. by rewrite <- app_assoc.
    + done.
    + intros t. rewrite Hstable, !with_key_app.
      destruct (gap_at_sorts k q cur p t Hp Hgap) as [_ ->].
      rewrite with_key_app, <- app_assoc. f_equal. by rewrite <- with_key_app.
Qed.

Lemma insertion_sort_spec fuel (data : loc) (S : list A) s c :
  s !! data = Some S → (length S + 2 ≤ fuel)%nat →
  spec key (insertion_sort key fuel data) (State s c)
    (λ st' r, ∃ out,
      s `prefix_of` store st' ∧ (length s ≤ r)%nat ∧
      store st' !! r = Some out ∧ sorts k S out).
Proof.
  intros Hd Hfuel. unfold insertion_sort, spec.
  rewrite (run_list_copy _ _ _ _ _ Hd).
  rewrite (run_len _ S) by (by apply list_lookup_middle).
  unfold py_range.
  eapply spec_bind with
    (φ := λ st' _, ∃ out, store st' = s ++ [out] ∧ sorts k S out).
  - destruct S as [|a S].
    + apply spec_ret. exists []. split; [done|]. apply sorts_short. simpl. lia.
    + replace (Z.of_nat (length (a :: S)) - 1) with (Z.of_nat (length S))
        by (simpl; lia).
      eapply spec_mono.
      * apply (insertion_loop_spec fuel (length s) S [a]).
        -- by apply list_lookup_middle.
        -- by repeat constructor.
        -- simpl in *. lia.
      * simpl. intros st' _ (out & Hst & Hsorts).
        rewrite insert_at_end in Hst. eauto.
  - intros st' _ (out & Hst & Hsorts). apply spec_ret. exists out.
    rewrite Hst. split_and!; [by apply prefix_app_r|done| |done].
    by apply list_lookup_middle.
Qed.
End InsertionSort.

(** ** Searching *)

Section Search.
Context {A K E : Type} `{KeyOrder K}.
Variables (key : A → E + K) (k : A → K).
Hypothesis Hagree : agrees key k.

Lemma klt_le_trans (a b t : K) :
  kle a b = true → klt b t = true → klt a t = true.
Proof.
  rewrite !klt_spec, !negb_true_iff. intros Hab Htb.
  destruct (kle t a) eqn:Hta; [|done].
  by rewrite (kle_trans _ _ _ Hta Hab) in Htb.
Qed.

Lemma klt_lt_le_trans (t a b : K) :
  klt t a = true → kle a b = true → klt t b = true.
Proof.
  rewrite !klt_spec, !negb_true_iff. intros Hat Hab.
  destruct (kle b t) eqn:Hbt; [|done].
  by rewrite (kle_trans _ _ _ Hab Hbt) in Hat.
Qed.

Lemma klt_of_ne (a t : K) :
  keq a t = false → klt a t = false → klt t a = true.
Proof.
  intros Hne%keq_false Hlt%klt_false. rewrite klt_spec, negb_true_iff.
  destruct (kle a t) eqn:Hat; [|done]. by destruct Hne; apply kle_antisym.
Qed.

(** In a sorted list, everything left of [low] is below the target and
    everything right of [high] is above it. *)
Lemma search_loop_spec fuel (data : loc) (target : K) (S : list A) :
  Sorted (le_by k) S →
  ∀ (low high : Z) s c,
  s !! data = Some S →
  0 ≤ low → high < Z.of_nat (length S) →
  (∀ i x, S !! i = Some x → Z.of_nat i < low → klt (k x) target = true) →
  (∀ i x, S !! i = Some x → high < Z.of_nat i → klt target (k x) = true) →
  (Z.to_nat (high - low + 1) < fuel)%nat →
  spec key (search_loop key fuel data target low high) (State s c)
    (λ st' r, store st' = s ∧
      match r with
      | Some m => ∃ (n : nat) x, m = Z.of_nat n ∧ S !! n = Some x ∧ k x = target
      | None => ∀ x, x ∈ S → k x ≠ target
      end).
Proof.
  intros Hsorted. induction fuel as [|fuel IH];
    intros low high s c Hd Hlow Hhigh Hbelow Habove Hfuel; [lia|].
  cbn [search_loop]. destruct (Z.leb_spec low high) as [Hle|Hgt].
  2: { apply spec_ret. split; [done|].
       intros x [i Hi]%list_elem_of_lookup_1 Heq.
       destruct (Z.lt_ge_cases (Z.of_nat i) low) as [Hi1|Hi1].
       - destruct (klt_true _ _ (Hbelow i x Hi Hi1)) as [_ Hne]. done.
       - destruct (klt_true _ _ (Habove i x Hi ltac:(lia))) as [_ Hne].
         done. }
  assert (low ≤ (low + high) / 2 ≤ high) as Hmid.
  { split; [apply Z.div_le_lower_bound|apply Z.div_le_upper_bound]; lia. }
  set (mid := (low + high) / 2) in *.
  destruct (lookup_lt_is_Some_2 S (Z.to_nat mid)) as [x Hx]; [lia|].
  unfold spec.
  rewrite (run_getitem _ _ _ _ _ _ _ _ Hd Hx) by lia.
  destruct (key x) as [e|v] eqn:Hkx.
  { eapply spec_raised; [by apply run_call_key_raise|done]. }
  rewrite (run_call_key _ _ _ _ _ _ Hkx). apply Hagree in Hkx as <-.
  destruct (keq (k x) target) eqn:Heq.
  { apply spec_ret. split; [done|]. exists (Z.to_nat mid), x.
    split_and!; [lia|done|by apply keq_spec]. }
  destruct (klt (k x) target) eqn:Hlt.
  - apply IH; [done|lia|lia| |done|lia].
    intros i y Hy Hi. eapply klt_le_trans; [|exact Hlt].
    eapply sorted_lookup_le; [done..|lia].
  - apply IH; [done|lia|lia|done| |lia].
    intros i y Hy Hi. eapply klt_lt_le_trans; [by apply klt_of_ne|].
    eapply sorted_lookup_le; [done..|lia].
Qed.

Lemma binary_search_spec fuel (data : loc) (target : K) (S : list A) s c :
  s !! data = Some S → Sorted (le_by k) S → (length S + 2 ≤ fuel)%nat →
  spec key (binary_search key fuel data target) (State s c)
    (λ st' r, store st' = s ∧
      match r with
      | Some m => ∃ (n : nat) x, m = Z.of_nat n ∧ S !! n = Some x ∧ k x = target
      | None => ∀ x, x ∈ S → k x ≠ target
      end).
Proof.
  intros Hd Hsorted Hfuel. unfold binary_search, spec.
  rewrite (run_len _ _ _ _ _ Hd).
  apply search_loop_spec; [done|done|lia|lia| | |lia].
  - intros i x _ Hi. lia.
  - intros i x Hx%lookup_lt_Some Hi. lia.
Qed.

(** The scan of [items], whose first item has index [i]. *)
Lemma scan_spec (target : K) :
  ∀ (items : list A) (i : nat) s c,
  spec key (scan key items (Z.of_nat i) target) (State s c)
    (λ st' r, store st' = s ∧
      match r with
      | Some m => ∃ (n : nat) x,
          m = Z.of_nat (i + n) ∧ items !! n = Some x ∧ k x = target ∧
          ∀ n' y, (n' < n)%nat → items !! n' = Some y → k y ≠ target
      | None => ∀ x, x ∈ items → k x ≠ target
      end).
Proof.
  induction items as [|item items IH]; intros i s c.
  { apply spec_ret. split; [done|]. by intros x ?%elem_of_nil. }
  cbn [scan]. unfold spec.
  destruct (key item) as [e|v] eqn:Hk.
  { eapply spec_raised; [by apply run_call_key_raise|done]. }
  rewrite (run_call_key _ _ _ _ _ _ Hk). apply Hagree in Hk as <-.
  destruct (keq (k item) target) eqn:Heq.
  - apply spec_ret. split; [done|]. exists 0%nat, item.
    split_and!; [f_equal; lia|done|by apply keq_spec|]. intros; lia.
  - apply keq_false in Heq.
    replace (Z.of_nat i + 1) with (Z.of_nat (S i)) by lia.
    eapply spec_mono; [apply IH|]. intros st' [m|] [Hst Hr].
    + destruct Hr as (n & x & -> & Hx & Hkx & Hfirst). split; [done|].
      exists (S n), x. split_and!; [f_equal; lia|done..|].
      intros [|n'] y Hn' Hy; simplify_eq/=; [done|].
      eapply Hfirst; [|done]. lia.
    + split; [done|]. intros x [->|Hx]%elem_of_cons; [done|by apply Hr].
Qed.

Lemma linear_search_spec (data : loc) (target : K) (S : list A) s c :
  s !! data = Some S →
  spec key (linear_search key data target) (State s c)
    (λ st' r, store st' = s ∧
      match r with
      | Some m => ∃ (n : nat) x,
          m = Z.of_nat n ∧ S !! n = Some x ∧ k x = target ∧
          ∀ n' y, (n' < n)%nat → S !! n' = Some y → k y ≠ target
      | None => ∀ x, x ∈ S → k x ≠ target
      end).
Proof.
  intros Hd. unfold linear_search, spec. rewrite (run_read _ _ _ _ _ Hd).
  apply (scan_spec target S 0).
Qed.
End Search.

(** ** Binary search on any list: a returned index is a match *)

Section Soundness.
Context {A K E : Type} `{KeyOrder K}.
Variable key : A → E + K.

#[local] Abbreviation M := (@M A E).

Lemma norm_index_nonneg (n : nat) (i : Z) (j : nat) :
  0 ≤ i → norm_index n i = Some j → i = Z.of_nat j ∧ (j < n)%nat.
Proof.
  intros Hi. unfold norm_index.
  destruct (Z.leb_spec 0 i); [|lia].
  destruct (Z.ltb_spec i (Z.of_nat n)); [|done].
  intros [= <-]. lia.
Qed.

Lemma run_getitem_inv {Y} d (l : list A) (i : Z) (f : A → M Y) s c st' y :
  s !! d = Some l → 0 ≤ i →
  bind (getitem d i) f (State s c) = (st', Ok y) →
  ∃ (n : nat) x, i = Z.of_nat n ∧ l !! n = Some x ∧
    f x (State s c) = (st', Ok y).
Proof.
  intros Hd Hi. unfold getitem, bind, read. simpl. rewrite Hd.
  destruct (norm_index (length l) i) as [n|] eqn:Hn; simpl; [|done].
  apply norm_index_nonneg in Hn as [-> Hn]; [|done].
  destruct (l !! n) as [x|] eqn:Hx; simpl; [|done]. eauto.
Qed.

Lemma run_call_key_inv {Y} (x : A) (f : K → M Y) s c st' y :
  bind (call_key key x) f (State s c) = (st', Ok y) →
  ∃ v, key x = inr v ∧ f v (State s (c ++ [x])) = (st', Ok y).
Proof.
  unfold bind, call_key. simpl. destruct (key x) as [e|v]; [done|]. eauto.
Qed.

Lemma search_loop_sound fuel (data : loc) (target : K) (S : list A) :
  ∀ (low high : Z) s c st' (m : Z),
  s !! data = Some S → 0 ≤ low →
  search_loop key fuel data target low high (State s c)
    = (st', Ok (Some m)) →
  ∃ (n : nat) x v, m = Z.of_nat n ∧ S !! n = Some x ∧
    key x = inr v ∧ keq v target = true.
Proof.
  induction fuel as [|fuel IH]; intros low high s c st' m Hd Hlow Hrun;
    [done|].
  cbn [search_loop] in Hrun.
  destruct (Z.leb_spec low high) as [Hle|Hgt]; [|done].
  assert (0 ≤ (low + high) / 2) as Hmid by (apply Z.div_pos; lia).
  apply (run_getitem_inv _ _ _ _ _ _ _ _ Hd Hmid) in Hrun
    as (n & x & Hn & Hx & Hrun).
  apply run_call_key_inv in Hrun as (v & Hv & Hrun).
  destruct (keq v target) eqn:Heq.
  { injection Hrun as _ <-. by exists n, x, v. }
  destruct (klt v target); eapply IH in Hrun; try done; lia.
Qed.
End Soundness.

(** ** The key calls of a run *)

Section Discipline.
Context {A K E : Type} `{KeyOrder K}.
Variable key : A → E + K.

#[local] Abbreviation M := (@M A E).

Lemma disciplined_ret {X} (x : X) : disciplined key (ret x : M X).
Proof. intros st. exists []. simpl. by rewrite app_nil_r. Qed.

Lemma disciplined_timeout {X} : disciplined key (timeout : M X).
Proof. intros st. exists []. simpl. by rewrite app_nil_r. Qed.

Lemma disciplined_bind {X Y} (m : M X) (f : X → M Y) :
  disciplined key m → (∀ x, disciplined key (f x)) →
  disciplined key (bind m f).
Proof.
  intros Hm Hf st. destruct (Hm st) as (t & Hc & Ht). unfold bind.
  destruct (m st) as [st1 [x|e|]]; simpl in *; [|by exists t..].
  destruct (Hf x st1) as (t2 & Hc2 & Ht2). exists (t ++ t2).
  split; [by rewrite Hc2, Hc, app_assoc|].
  destruct (f x st1).2 as [y|[e| |]|]; simpl in *;
    try (by apply Forall_app).
  destruct Ht2 as (t0 & z & -> & Ht0 & Hz). exists (t ++ t0), z.
  split_and!; [by rewrite app_assoc|by apply Forall_app|done].
Qed.

Lemma disciplined_read d : disciplined key (read d : M _).
Proof.
  intros st. exists []. unfold read.
  destruct (store st !! d); simpl; by rewrite app_nil_r.
Qed.

Lemma disciplined_write d l : disciplined key (write d l : M _).
Proof. intros st. exists []. simpl. by rewrite app_nil_r. Qed.

Lemma disciplined_alloc l : disciplined key (alloc l : M _).
Proof. intros st. exists []. simpl. by rewrite app_nil_r. Qed.

Lemma disciplined_raise_index {X} :
  disciplined key (raise IndexError : M X).
Proof. intros st. exists []. simpl. by rewrite app_nil_r. Qed.

Lemma disciplined_call_key x : disciplined key (call_key key x).
Proof.
  intros st. exists [x]. split; [done|]. unfold call_key. simpl.
  destruct (key x) as [e|v] eqn:Hk; simpl.
  - exists [], x. by split_and!.
  - repeat constructor. by exists v.
Qed.

#[local] Ltac disc :=
  repeat first
    [ assumption
    | apply disciplined_ret | apply disciplined_timeout
    | apply disciplined_read | apply disciplined_write
    | apply disciplined_alloc | apply disciplined_raise_index
    | apply disciplined_call_key
    | apply disciplined_bind; [|intros ?]
    | match goal with
      | |- disciplined _ (if ?b then _ else _) => destruct b
      | |- disciplined _ (match ?o with Some _ => _ | None => _ end) =>
          destruct o
      end ].

Lemma disciplined_len d : disciplined key (len d : M _).
Proof. unfold len. disc. Qed.

Lemma disciplined_getitem d i : disciplined key (getitem d i : M _).
Proof. unfold getitem. disc. Qed.

Lemma disciplined_setitem d i x : disciplined key (setitem d i x : M _).
Proof. unfold setitem. disc. Qed.

Lemma disciplined_list_copy d : disciplined key (list_copy d : M _).
Proof. unfold list_copy. disc. Qed.

Lemma disciplined_slice d lo hi : disciplined key (slice d lo hi : M _).
Proof. unfold slice. disc. Qed.

Lemma disciplined_append d x : disciplined key (append d x : M _).
Proof. unfold append. disc. Qed.

Lemma disciplined_extend d d2 : disciplined key (extend d d2 : M _).
Proof. unfold extend. disc. Qed.

#[local] Ltac disc' :=
  repeat first
    [ apply disciplined_len | apply disciplined_getitem
    | apply disciplined_setitem | apply disciplined_list_copy
    | apply disciplined_slice | apply disciplined_append
    | apply disciplined_extend | progress disc ].

Lemma disciplined_merge_loop fuel :
  ∀ left right result i j,
  disciplined key (merge_loop key fuel left right result i j).
Proof.
  induction fuel as [|fuel IH]; intros; cbn [merge_loop]; disc'; apply IH.
Qed.

Lemma disciplined__merge fuel left right :
  disciplined key (_merge key fuel left right).
Proof. unfold _merge. disc'. apply disciplined_merge_loop. Qed.

Lemma disciplined_merge_sort fuel :
  ∀ data, disciplined key (merge_sort key fuel data).
Proof.
  induction fuel as [|fuel IH]; intros; cbn [merge_sort]; cbv zeta; disc';
    first [apply IH|apply disciplined_merge_loop].
Qed.

Lemma disciplined_shift_loop fuel :
  ∀ result current j, disciplined key (shift_loop key fuel result current j).
Proof.
  induction fuel as [|fuel IH]; intros; cbn [shift_loop]; disc'; apply IH.
Qed.

Lemma disciplined_for_each idx (body : Z → M unit) :
  (∀ i, disciplined key (body i)) → disciplined key (for_each idx body).
Proof. intros Hb. induction idx; cbn [for_each]; disc'. apply Hb. Qed.

Lemma disciplined_insertion_sort fuel data :
  disciplined key (insertion_sort key fuel data).
Proof.
  unfold insertion_sort. disc'. apply disciplined_for_each. intros i.
  disc'. apply disciplined_shift_loop.
Qed.

Lemma disciplined_search_loop fuel :
  ∀ data target low high,
  disciplined key (search_loop key fuel data target low high).
Proof.
  induction fuel as [|fuel IH]; intros; cbn [search_loop]; disc'; apply IH.
Qed.

Lemma disciplined_binary_search fuel data target :
  disciplined key (binary_search key fuel data target).
Proof. unfold binary_search. disc'. apply disciplined_search_loop. Qed.

Lemma disciplined_scan target :
  ∀ items i, disciplined key (scan key items i target).
Proof. induction items as [|x items IH]; intros; cbn [scan]; disc'; apply IH. Qed.

Lemma disciplined_linear_search data target :
  disciplined key (linear_search key data target).
Proof. unfold linear_search. disc'. apply disciplined_scan. Qed.

(** What discipline gives for one failing call. *)
Lemma disciplined_failure {X} (m : M X) st x e :
  disciplined key m →
  x ∈ drop (length (calls st)) (calls (m st).1) → key x = inl e →
  (m st).2 = Raise (KeyRaised e) ∧
  ∃ t0, calls (m st).1 = calls st ++ t0 ++ [x] ∧ Forall (key_ok key) t0.
Proof.
  intros Hm Hx Hk. destruct (Hm st) as (t & Hc & Ht).
  rewrite Hc, drop_app_length in Hx.
  assert (¬ key_ok key x) as Hbad by (intros [v Hv]; congruence).
  assert (∀ t', Forall (key_ok key) t' → x ∈ t' → False) as Hnot.
  { intros t' Hall Hin. rewrite Forall_forall in Hall. by apply Hbad, Hall. }
  destruct (m st).2 as [y|[e'| |]|]; simpl in Ht; try (by destruct (Hnot t)).
  destruct Ht as (t0 & z & -> & Ht0 & Hz).
  apply elem_of_app in Hx as [Hx|Hx%list_elem_of_singleton];
    [by destruct (Hnot t0)|].
  subst z. split; [congruence|]. by exists t0.
Qed.
End Discipline.


(** ** The lists a run may change *)

Section Frame.
Context {A K E : Type} `{KeyOrder K}.
Variable key : A → E + K.

#[local] Abbreviation M := (@M A E).

Lemma framed_ret {X} n (x : X) (φ : X → Prop) :
  φ x → framed n (ret x : M X) φ.
Proof. intros Hφ st _. split; [done|]. by intros ? [= <-]. Qed.

Lemma framed_timeout {X} n (φ : X → Prop) : framed n (timeout : M X) φ.
Proof. by intros st _. Qed.

Lemma framed_raise {X} n e (φ : X → Prop) : framed n (raise e : M X) φ.
Proof. by intros st _. Qed.

Lemma framed_mono {X} n (m : M X) (φ ψ : X → Prop) :
  framed n m φ → (∀ x, φ x → ψ x) → framed n m ψ.
Proof. intros Hm Himp st Hn. destruct (Hm st Hn). naive_solver. Qed.

Lemma framed_bind {X Y} n (m : M X) (f : X → M Y) φ ψ :
  framed n m φ → (∀ x, φ x → framed n (f x) ψ) → framed n (bind m f) ψ.
Proof.
  intros Hm Hf st Hn. destruct (Hm st Hn) as [Htake Hφ]. unfold bind.
  destruct (m st) as [st1 [x|e|]]; simpl in *; [|done..].
  assert (n ≤ length (store st1))%nat as Hn1.
  { apply (f_equal length) in Htake. rewrite !length_take in Htake. lia. }
  destruct (Hf x (Hφ x eq_refl) st1 Hn1) as [Htake1 Hψ].
  split; [by rewrite Htake1|done].
Qed.

Lemma framed_read n d : framed n (read d : M _) (λ _, True).
Proof. intros st _. unfold read. by destruct (store st !! d). Qed.

Lemma framed_write n d l :
  (n ≤ d)%nat → framed n (write d l : M _) (λ _, True).
Proof. intros Hd st _. simpl. by rewrite take_insert_ge. Qed.

Lemma framed_alloc n l : framed n (alloc l : M _) (λ r, (n ≤ r)%nat).
Proof.
  intros st Hn. simpl. split; [by rewrite take_app_le|]. by intros ? [= <-].
Qed.

Lemma framed_call_key n x : framed n (call_key key x) (λ _, True).
Proof. by intros st _. Qed.

#[local] Ltac frame_step :=
  first
    [ assumption
    | apply framed_timeout | apply framed_raise
    | apply framed_read | apply framed_call_key | apply framed_alloc
    | apply framed_write; assumption
    | apply framed_ret; first [assumption|exact I]
    | eapply framed_bind; [|intros ? ?]
    | match goal with
      | |- framed _ (if ?b then _ else _) _ => destruct b
      | |- framed _ (match ?o with Some _ => _ | None => _ end) _ =>
          destruct o
      end ].

Lemma framed_len n d : framed n (len d : M _) (λ _, True).
Proof. unfold len. repeat frame_step. Qed.

Lemma framed_getitem n d i : framed n (getitem d i : M _) (λ _, True).
Proof. unfold getitem. repeat frame_step. Qed.

Lemma framed_setitem n d i x :
  (n ≤ d)%nat → framed n (setitem d i x : M _) (λ _, True).
Proof. intros Hd. unfold setitem. repeat frame_step. Qed.

Lemma framed_list_copy n d :
  framed n (list_copy d : M _) (λ r, (n ≤ r)%nat).
Proof. unfold list_copy. repeat frame_step. Qed.

Lemma framed_slice n d lo hi :
  framed n (slice d lo hi : M _) (λ r, (n ≤ r)%nat).
Proof. unfold slice. repeat frame_step. Qed.

Lemma framed_append n d x :
  (n ≤ d)%nat → framed n (append d x : M _) (λ _, True).
Proof. intros Hd. unfold append. repeat frame_step. Qed.

Lemma framed_extend n d d2 :
  (n ≤ d)%nat → framed n (extend d d2 : M _) (λ _, True).
Proof. intros Hd. unfold extend. repeat frame_step. Qed.

#[local] Ltac frame :=
  repeat first
    [ apply framed_len | apply framed_getitem
    | apply framed_list_copy | apply framed_slice
    | apply framed_setitem; assumption
    | apply framed_append; assumption
    | apply framed_extend; assumption
    | frame_step ].

Lemma framed_merge_loop n fuel :
  ∀ left right result i j, (n ≤ result)%nat →
  framed n (merge_loop key fuel left right result i j) (λ _, True).
Proof.
  induction fuel as [|fuel IH]; intros; cbn [merge_loop]; frame;
    by apply IH.
Qed.

Lemma framed__merge n fuel left right :
  framed n (_merge key fuel left right) (λ r, (n ≤ r)%nat).
Proof.
  unfold _merge. eapply framed_bind; [apply framed_alloc|].
  intros result Hres. eapply framed_bind; [by apply framed_merge_loop|].
  intros ij _. frame.
Qed.

Lemma framed_merge_sort n fuel :
  ∀ data, framed n (merge_sort key fuel data) (λ r, (n ≤ r)%nat).
Proof.
  induction fuel as [|fuel IH]; intros; cbn [merge_sort]; cbv zeta;
    [apply framed_timeout|].
  eapply framed_bind; [apply framed_len|]. intros len _.
  destruct (len <=? 1); [apply framed_list_copy|].
  eapply framed_bind; [apply framed_slice|]. intros lo _.
  eapply framed_bind; [apply IH|]. intros left _.
  eapply framed_bind; [apply framed_slice|]. intros hi _.
  eapply framed_bind; [apply IH|]. intros right _.
  apply framed__merge.
Qed.

Lemma framed_shift_loop n fuel :
  ∀ result current j, (n ≤ result)%nat →
  framed n (shift_loop key fuel result current j) (λ _, True).
Proof.
  induction fuel as [|fuel IH]; intros; cbn [shift_loop]; frame;
    by apply IH.
Qed.

Lemma framed_for_each n idx (body : Z → M unit) :
  (∀ i, framed n (body i) (λ _, True)) →
  framed n (for_each idx body) (λ _, True).
Proof. intros Hb. induction idx; cbn [for_each]; frame. apply Hb. Qed.

Lemma framed_insertion_sort n fuel data :
  framed n (insertion_sort key fuel data) (λ r, (n ≤ r)%nat).
Proof.
  unfold insertion_sort. eapply framed_bind; [apply framed_list_copy|].
  intros result Hres. eapply framed_bind; [apply framed_len|]. intros len _.
  eapply framed_bind; [|intros; by apply framed_ret].
  apply framed_for_each. intros i. frame. by apply framed_shift_loop.
Qed.

(** A run that is framed at the size of the store keeps every list that
    exists when it starts. *)
Lemma framed_keeps {X} (m : M X) (φ : X → Prop) st d l :
  framed (length (store st)) m φ →
  store st !! d = Some l → store (m st).1 !! d = Some l.
Proof.
  intros Hm Hd. destruct (Hm st (le_n _)) as [Htake _].
  apply lookup_lt_Some in Hd as Hlt.
  rewrite <- (lookup_take_lt _ (length (store st))) by done.
  rewrite Htake, lookup_take_lt by done. done.
Qed.
End Frame.

(** ** Termination of the search loop on any list *)

Section SearchTermination.
Context {A K E : Type} `{KeyOrder K}.
Variable key : A → E + K.

Lemma search_loop_completes fuel (data : loc) (target : K) (S : list A) :
  ∀ (low high : Z) s c,
  s !! data = Some S →
  0 ≤ low → high < Z.of_nat (length S) →
  (Z.to_nat (high - low + 1) < fuel)%nat →
  spec key (search_loop key fuel data target low high) (State s c)
    (λ _ _, True).
Proof.
  induction fuel as [|fuel IH]; intros low high s c Hd Hlow Hhigh Hfuel;
    [lia|].
  cbn [search_loop]. destruct (Z.leb_spec low high) as [Hle|Hgt];
    [|by apply spec_ret].
  assert (low ≤ (low + high) / 2 ≤ high) as Hmid.
  { split; [apply Z.div_le_lower_bound|apply Z.div_le_upper_bound]; lia. }
  set (mid := (low + high) / 2) in *.
  destruct (lookup_lt_is_Some_2 S (Z.to_nat mid)) as [x Hx]; [lia|].
  unfold spec. rewrite (run_getitem _ _ _ _ _ _ _ _ Hd Hx) by lia.
  destruct (key x) as [e|v] eqn:Hkx.
  { eapply spec_raised; [by apply run_call_key_raise|done]. }
  rewrite (run_call_key _ _ _ _ _ _ Hkx).
  destruct (keq v target); [by apply spec_ret|].
  destruct (klt v target); apply IH; first [done|lia].
Qed.

Lemma binary_search_completes fuel (data : loc) (target : K) (S : list A) s c :
  s !! data = Some S → (length S + 2 ≤ fuel)%nat →
  spec key (binary_search key fuel data target) (State s c) (λ _ _, True).
Proof.
  intros Hd Hfuel. unfold binary_search, spec. rewrite (run_len _ _ _ _ _ Hd).
  apply search_loop_completes with (S := S); first [done|lia].
Qed.
End SearchTermination.

(** ** From statements to outcomes *)

Section Outcomes.
Context {A K E : Type} `{KeyOrder K}.

Lemma agrees_pure (k : A → K) : agrees (pure_key E k) k.
Proof. intros x v [= <-]. done. Qed.

Lemma agrees_key_view (key : A → E + K) (d : K) : agrees key (key_view key d).
Proof. intros x v Hk. unfold key_view. by rewrite Hk. Qed.

Lemma spec_pure_ok {X} (k : A → K) (m : @M A E X) st φ :
  spec (pure_key E k) m st φ → ∃ st' x, m st = (st', Ok x) ∧ φ st' x.
Proof.
  intros (st' & [x|e|] & Hm & Hout); [by eauto| |done].
  by destruct Hout as (x & e' & _ & ?).
Qed.

Lemma spec_completes {X} (key : A → E + K) (m : @M A E X) st φ :
  spec key m st φ → (m st).2 ≠ Timeout.
Proof. intros (st' & out & -> & Hout). by destruct out. Qed.

(** With a key function that does not raise, both sorts return a new list
    that is the input sorted, and leave every list they were given as it
    was. *)
Lemma merge_sort_pure (k : A → K) fuel data (S : list A) st :
  store st !! data = Some S → (length S + 2 ≤ fuel)%nat →
  ∃ st' r out, merge_sort (pure_key E k) fuel data st = (st', Ok r) ∧
    store st `prefix_of` store st' ∧ (length (store st) ≤ r)%nat ∧
    store st' !! r = Some out ∧ sorts k S out.
Proof.
  destruct st as [s c]. intros Hd Hfuel.
  destruct (spec_pure_ok k _ _ _
    (merge_sort_spec _ k (agrees_pure k) fuel data S s c Hd Hfuel))
    as (st' & r & Hrun & out & Hout).
  by exists st', r, out.
Qed.

Lemma insertion_sort_pure (k : A → K) fuel data (S : list A) st :
  store st !! data = Some S → (length S + 2 ≤ fuel)%nat →
  ∃ st' r out, insertion_sort (pure_key E k) fuel data st = (st', Ok r) ∧
    store st `prefix_of` store st' ∧ (length (store st) ≤ r)%nat ∧
    store st' !! r = Some out ∧ sorts k S out.
Proof.
  destruct st as [s c]. intros Hd Hfuel.
  destruct (spec_pure_ok k _ _ _
    (insertion_sort_spec _ k (agrees_pure k) fuel data S s c Hd Hfuel))
    as (st' & r & Hrun & out & Hout).
  by exists st', r, out.
Qed.

Lemma sorts_sorted_id (k : A → K) (S out : list A) :
  ordered k S → sorts k S out → out = S.
Proof.
  intros HS%ordered_Sorted (_ & Hout%ordered_Sorted & Hstable).
  by apply (sorted_stable_unique k).
Qed.

Lemma sorts_unique (k : A → K) (S out1 out2 : list A) :
  sorts k S out1 → sorts k S out2 → out1 = out2.
Proof.
  intros (_ & H1%ordered_Sorted & Hs1) (_ & H2%ordered_Sorted & Hs2).
  apply (sorted_stable_unique k); [done..|]. intros t. by rewrite Hs1, Hs2.
Qed.
End Outcomes.


(** ** The embedding at work *)

Example merge_sort_empty :
  returned (merge_sort (pure_key unit id) 1 0%nat (one_list [])) = Some [].
Proof. done. Qed.

Example insertion_sort_singleton (x : Z) :
  returned (insertion_sort (pure_key unit id) 1 0%nat (one_list [x]))
    = Some [x].
Proof. done. Qed.

Example merge_sort_unsorted :
  returned (merge_sort (pure_key unit snd) 6 0%nat (one_list unsorted))
  = Some [("y"%string, 1); ("w"%string, 2); ("x"%string, 3);
          ("z"%string, 3)].
Proof. vm_compute. done. Qed.

Example insertion_sort_unsorted :
  returned (insertion_sort (pure_key unit snd) 6 0%nat (one_list unsorted))
  = Some [("y"%string, 1); ("w"%string, 2); ("x"%string, 3);
          ("z"%string, 3)].
Proof. vm_compute. done. Qed.

Example merge_sort_out_of_fuel :
  (merge_sort (pure_key unit snd) 3 0%nat (one_list unsorted)).2 = Timeout.
Proof. vm_compute. done. Qed.

Example merge_sort_key_raises :
  (merge_sort failing_key 6 0%nat (one_list unsorted)).2
    = Raise (KeyRaised "bad item"%string).
Proof. vm_compute. done. Qed.

Example short_lists_call_no_key :
  (merge_sort failing_key 1 0%nat (one_list [("z"%string, 3)])).2
    = Ok 1%nat ∧
  (insertion_sort failing_key 1 0%nat (one_list [("z"%string, 3)])).2
    = Ok 1%nat.
Proof. by split. Qed.

(** ** The contracts *)

(** C1. With a key function [k] that does not raise, on every input list
    [S], [merge_sort] and [insertion_sort] both return a list that holds
    exactly the items of [S] (a permutation of it) and is in non-decreasing
    key order: every two adjacent items [x], [y] of it have
    [k x <= k y]. *)
Theorem sorts_permute_and_order {A K E : Type} `{KeyOrder K}
    (k : A → K) (fuel : nat) (data : loc) (S : list A) (st : state A) :
  store st !! data = Some S → (length S + 2 ≤ fuel)%nat →
  (∃ st' r out, merge_sort (pure_key E k) fuel data st = (st', Ok r) ∧
    store st' !! r = Some out ∧ S ≡ₚ out ∧ ordered k out) ∧
  (∃ st' r out, insertion_sort (pure_key E k) fuel data st = (st', Ok r) ∧
    store st' !! r = Some out ∧ S ≡ₚ out ∧ ordered k out).
Proof.
  intros Hd Hfuel. split.
  - destruct (merge_sort_pure (E:=E) k fuel data S st Hd Hfuel)
      as (st' & r & out & Hrun & _ & _ & Hr & Hperm & Hord & _).
    by exists st', r, out.
  - destruct (insertion_sort_pure (E:=E) k fuel data S st Hd Hfuel)
      as (st' & r & out & Hrun & _ & _ & Hr & Hperm & Hord & _).
    by exists st', r, out.
Qed.

Lemma sorts_permute_and_order_witness :
  store (one_list unsorted) !! 0%nat = Some unsorted ∧
  (length unsorted + 2 ≤ 6)%nat ∧
  (∃ st' r out,
    merge_sort (pure_key string snd) 6 0%nat (one_list unsorted)
      = (st', Ok r) ∧
    store st' !! r = Some out ∧ unsorted ≡ₚ out ∧ ordered snd out) ∧
  (∃ st' r out,
    insertion_sort (pure_key string snd) 6 0%nat (one_list unsorted)
      = (st', Ok r) ∧
    store st' !! r = Some out ∧ unsorted ≡ₚ out ∧ ordered snd out).
Proof.
  split; [reflexivity|]. split; [simpl; lia|].
  apply (sorts_permute_and_order (E:=string) snd 6 0%nat unsorted
    (one_list unsorted)); [reflexivity|simpl; lia].
Defined.

(** C2. Both sorts are stable: for every key value [t], the items of key
    [t] appear in the output in the order they have in the input, so any
    two items with equal keys keep their relative order. *)
Theorem sorts_are_stable {A K E : Type} `{KeyOrder K}
    (k : A → K) (fuel : nat) (data : loc) (S : list A) (st : state A) :
  store st !! data = Some S → (length S + 2 ≤ fuel)%nat →
  (∃ st' r out, merge_sort (pure_key E k) fuel data st = (st', Ok r) ∧
    store st' !! r = Some out ∧
    ∀ t, with_key k t out = with_key k t S) ∧
  (∃ st' r out, insertion_sort (pure_key E k) fuel data st = (st', Ok r) ∧
    store st' !! r = Some out ∧
    ∀ t, with_key k t out = with_key k t S).
Proof.
  intros Hd Hfuel. split.
  - destruct (merge_sort_pure (E:=E) k fuel data S st Hd Hfuel)
      as (st' & r & out & Hrun & _ & _ & Hr & _ & _ & Hstable).
    by exists st', r, out.
  - destruct (insertion_sort_pure (E:=E) k fuel data S st Hd Hfuel)
      as (st' & r & out & Hrun & _ & _ & Hr & _ & _ & Hstable).
    by exists st', r, out.
Qed.

Lemma sorts_are_stable_witness :
  store (one_list unsorted) !! 0%nat = Some unsorted ∧
  (length unsorted + 2 ≤ 6)%nat ∧
  (∃ st' r out,
    merge_sort (pure_key string snd) 6 0%nat (one_list unsorted)
      = (st', Ok r) ∧
    store st' !! r = Some out ∧
    ∀ t, with_key snd t out = with_key snd t unsorted) ∧
  (∃ st' r out,
    insertion_sort (pure_key string snd) 6 0%nat (one_list unsorted)
      = (st', Ok r) ∧
    store st' !! r = Some out ∧
    ∀ t, with_key snd t out = with_key snd t unsorted).
Proof.
  split; [reflexivity|]. split; [simpl; lia|].
  apply (sorts_are_stable (E:=string) snd 6 0%nat unsorted
    (one_list unsorted)); [reflexivity|simpl; lia].
Defined.

(** C3. On a list [S] in non-decreasing key order, [binary_search] returns
    the index of an item whose key equals the target when there is such an
    item, and [None] when there is none.  On [[1; 3; 5; 7; 9]] with the
    identity key, target [5] gives index [2] and target [4] gives
    [None]. *)
Theorem binary_search_finds :
  (∀ {A K E : Type} `{KeyOrder K} (k : A → K) (fuel : nat) (data : loc)
     (S : list A) (target : K) (st : state A),
    store st !! data = Some S → ordered k S → (length S + 2 ≤ fuel)%nat →
    ∃ st' r,
      binary_search (pure_key E k) fuel data target st = (st', Ok r) ∧
      ((∃ x, x ∈ S ∧ k x = target) →
        ∃ (n : nat) x,
          r = Some (Z.of_nat n) ∧ S !! n = Some x ∧ k x = target) ∧
      ((∀ x, x ∈ S → k x ≠ target) → r = None)) ∧
  (∀ fuel, (7 ≤ fuel)%nat →
    (binary_search (pure_key unit id) fuel 0%nat 5 (one_list odds)).2
      = Ok (Some 2)) ∧
  (∀ fuel, (7 ≤ fuel)%nat →
    (binary_search (pure_key unit id) fuel 0%nat 4 (one_list odds)).2
      = Ok None).
Proof.
  assert (∀ {A K E : Type} `{KeyOrder K} (k : A → K) (fuel : nat)
     (data : loc) (S : list A) (target : K) (st : state A),
    store st !! data = Some S → ordered k S → (length S + 2 ≤ fuel)%nat →
    ∃ st' r,
      binary_search (pure_key E k) fuel data target st = (st', Ok r) ∧
      match r with
      | Some m => ∃ (n : nat) x, m = Z.of_nat n ∧ S !! n = Some x ∧ k x = target
      | None => ∀ x, x ∈ S → k x ≠ target
      end) as Hgen.
  { intros A K E HK k fuel data S target [s c] Hd Hord%ordered_Sorted Hfuel.
    destruct (spec_pure_ok (E:=E) k _ _ _
      (binary_search_spec _ k (agrees_pure k) fuel data target S s c
        Hd Hord Hfuel)) as (st' & r & Hrun & _ & Hr).
    by exists st', r. }
  assert (ordered id odds) as Hodds.
  { apply ordered_Sorted. by repeat constructor. }
  split_and!.
  - intros A K E HK k fuel data S target st Hd Hord Hfuel.
    destruct (Hgen A K E HK k fuel data S target st Hd Hord Hfuel)
      as (st' & r & Hrun & Hr).
    exists st', r. split; [done|]. split.
    + intros (x & Hx & Hkx). destruct r as [m|]; [|by destruct (Hr x)].
      destruct Hr as (n & y & -> & Hy & Hky). by exists n, y.
    + intros Hnone. destruct r as [m|]; [|done].
      destruct Hr as (n & y & _ & Hy & Hky).
      destruct (Hnone y); [by eapply list_elem_of_lookup_2|done].
  - intros fuel Hfuel.
    destruct (Hgen Z Z unit _ id fuel 0%nat odds 5 (one_list odds))
      as (st' & r & Hrun & Hr); [done|done|simpl; lia|].
    rewrite Hrun. simpl. destruct r as [m|].
    + destruct Hr as (n & y & -> & Hy & Hky). unfold id in Hky. subst y.
      do 5 (destruct n as [|n]; [by simplify_eq/=|]). done.
    + destruct (Hr 5); [|done]. apply list_elem_of_In. simpl. tauto.
  - intros fuel Hfuel.
    destruct (Hgen Z Z unit _ id fuel 0%nat odds 4 (one_list odds))
      as (st' & r & Hrun & Hr); [done|done|simpl; lia|].
    rewrite Hrun. simpl. destruct r as [m|]; [|done].
    destruct Hr as (n & y & -> & Hy & Hky). unfold id in Hky. subst y.
    do 5 (destruct n as [|n]; [by simplify_eq/=|]). done.
Qed.

Lemma binary_search_finds_witness :
  store (one_list odds) !! 0%nat = Some odds ∧
  ordered id odds ∧
  (length odds + 2 ≤ 7)%nat ∧
  ∃ st' r,
    binary_search (pure_key unit id) 7 0%nat 7 (one_list odds)
      = (st', Ok r) ∧
    ((∃ x, x ∈ odds ∧ id x = 7) →
      ∃ (n : nat) x,
        r = Some (Z.of_nat n) ∧ odds !! n = Some x ∧ id x = 7) ∧
    ((∀ x, x ∈ odds → id x ≠ 7) → r = None).
Proof.
  assert (ordered id odds) as Hodds.
  { intros i x y Hx Hy.
    do 5 (destruct i as [|i]; [by simplify_eq/=|]). done. }
  split; [reflexivity|]. split; [exact Hodds|]. split; [simpl; lia|].
  apply (proj1 binary_search_finds Z Z unit _ id 7%nat 0%nat odds 7
    (one_list odds)); [reflexivity|exact Hodds|simpl; lia].
Defined.

(** C4. On any list, [linear_search] returns the lowest index whose item
    has the target key when there is such an item, and [None] when there
    is none.  On [[("a", 1); ("b", 2); ("c", 1)]] with the second
    component as key, target [1] gives index [0]. *)
Theorem linear_search_first_match :
  (∀ {A K E : Type} `{KeyOrder K} (k : A → K) (data : loc)
     (S : list A) (target : K) (st : state A),
    store st !! data = Some S →
    ∃ st' r,
      linear_search (pure_key E k) data target st = (st', Ok r) ∧
      ((∃ x, x ∈ S ∧ k x = target) →
        ∃ (n : nat) x,
          r = Some (Z.of_nat n) ∧ S !! n = Some x ∧ k x = target ∧
          ∀ n' y, (n' < n)%nat → S !! n' = Some y → k y ≠ target) ∧
      ((∀ x, x ∈ S → k x ≠ target) → r = None)) ∧
  (linear_search (pure_key unit snd) 0%nat 1 (one_list tagged)).2
    = Ok (Some 0).
Proof.
  split; [|reflexivity].
  intros A K E HK k data S target [s c] Hd.
  destruct (spec_pure_ok (E:=E) k _ _ _
    (linear_search_spec _ k (agrees_pure k) data target S s c Hd))
    as (st' & r & Hrun & _ & Hr).
  exists st', r. split; [done|]. split.
  - intros (x & Hx & Hkx). destruct r as [m|]; [|by destruct (Hr x)].
    destruct Hr as (n & y & -> & Hy & Hky & Hfirst). by exists n, y.
  - intros Hnone. destruct r as [m|]; [|done].
    destruct Hr as (n & y & _ & Hy & Hky & _).
    destruct (Hnone y); [by eapply list_elem_of_lookup_2|done].
Qed.

Lemma linear_search_first_match_witness :
  store (one_list tagged) !! 0%nat = Some tagged ∧
  ∃ st' r,
    linear_search (pure_key unit snd) 0%nat 1 (one_list tagged)
      = (st', Ok r) ∧
    ((∃ x, x ∈ tagged ∧ x.2 = 1) →
      ∃ (n : nat) x,
        r = Some (Z.of_nat n) ∧ tagged !! n = Some x ∧ x.2 = 1 ∧
        ∀ n' y, (n' < n)%nat → tagged !! n' = Some y → y.2 ≠ 1) ∧
    ((∀ x, x ∈ tagged → x.2 ≠ 1) → r = None).
Proof.
  split; [reflexivity|].
  apply (proj1 linear_search_first_match (string * Z)%type Z unit _ snd
    0%nat tagged 1 (one_list tagged)). reflexivity.
Defined.

(** C5. Neither sort changes its input.  After a call with a key function
    that does not raise, the input list holds what it held before, and so
    does every other list that existed before the call; the result is a
    list that did not exist before.  More generally, whatever the key
    function does and however the call ends, every list that existed
    before the call is as it was. *)
Theorem sorts_keep_input {A K E : Type} `{KeyOrder K}
    (k : A → K) (key : A → E + K) (fuel fuel' : nat) (data : loc)
    (S : list A) (st : state A) :
  store st !! data = Some S → (length S + 2 ≤ fuel)%nat →
  (∃ st' r, merge_sort (pure_key E k) fuel data st = (st', Ok r) ∧
    store st' !! data = Some S ∧
    (∀ d l, store st !! d = Some l → store st' !! d = Some l) ∧
    store st !! r = None) ∧
  (∃ st' r, insertion_sort (pure_key E k) fuel data st = (st', Ok r) ∧
    store st' !! data = Some S ∧
    (∀ d l, store st !! d = Some l → store st' !! d = Some l) ∧
    store st !! r = None) ∧
  (∀ d l, store st !! d = Some l →
    store (merge_sort key fuel' data st).1 !! d = Some l ∧
    store (insertion_sort key fuel' data st).1 !! d = Some l).
Proof.
  intros Hd Hfuel. split_and!.
  - destruct (merge_sort_pure (E:=E) k fuel data S st Hd Hfuel)
      as (st' & r & out & Hrun & Hpre & Hnew & _).
    exists st', r. split_and!; [done| | |by apply lookup_ge_None].
    + by eapply prefix_lookup_Some.
    + intros d l Hl. by eapply prefix_lookup_Some.
  - destruct (insertion_sort_pure (E:=E) k fuel data S st Hd Hfuel)
      as (st' & r & out & Hrun & Hpre & Hnew & _).
    exists st', r. split_and!; [done| | |by apply lookup_ge_None].
    + by eapply prefix_lookup_Some.
    + intros d l Hl. by eapply prefix_lookup_Some.
  - intros d l Hl. split.
    + eapply framed_keeps; [apply framed_merge_sort|done].
    + eapply framed_keeps; [apply framed_insertion_sort|done].
Qed.

Lemma sorts_keep_input_witness :
  let st := one_list unsorted in
  store st !! 0%nat = Some unsorted ∧
  (length unsorted + 2 ≤ 6)%nat ∧
  (∃ st' r,
    merge_sort (pure_key string snd) 6 0%nat st = (st', Ok r) ∧
    store st' !! 0%nat = Some unsorted ∧
    (∀ d l, store st !! d = Some l → store st' !! d = Some l) ∧
    store st !! r = None) ∧
  (∃ st' r,
    insertion_sort (pure_key string snd) 6 0%nat st = (st', Ok r) ∧
    store st' !! 0%nat = Some unsorted ∧
    (∀ d l, store st !! d = Some l → store st' !! d = Some l) ∧
    store st !! r = None) ∧
  (∀ d l, store st !! d = Some l →
    store (merge_sort failing_key 3 0%nat st).1 !! d = Some l ∧
    store (insertion_sort failing_key 3 0%nat st).1 !! d = Some l).
Proof.
  intros st. split; [reflexivity|]. split; [simpl; lia|].
  apply (sorts_keep_input snd failing_key 6 3 0%nat unsorted st);
    [reflexivity|simpl; lia].
Defined.

(** C6. Sorting is idempotent: on a list already in non-decreasing key
    order both sorts return a list equal to the input; and, on any list,
    sorting the output of a sort returns a list equal to that output. *)
Theorem sorts_idempotent {A K E : Type} `{KeyOrder K}
    (k : A → K) (fuel : nat) (data : loc) (S : list A) (st : state A) :
  store st !! data = Some S → (length S + 2 ≤ fuel)%nat →
  (ordered k S →
    (∃ st' r, merge_sort (pure_key E k) fuel data st = (st', Ok r) ∧
      store st' !! r = Some S) ∧
    (∃ st' r, insertion_sort (pure_key E k) fuel data st = (st', Ok r) ∧
      store st' !! r = Some S)) ∧
  (∃ st' r out st'' r',
    merge_sort (pure_key E k) fuel data st = (st', Ok r) ∧
    store st' !! r = Some out ∧
    merge_sort (pure_key E k) fuel r st' = (st'', Ok r') ∧
    store st'' !! r' = Some out) ∧
  (∃ st' r out st'' r',
    insertion_sort (pure_key E k) fuel data st = (st', Ok r) ∧
    store st' !! r = Some out ∧
    insertion_sort (pure_key E k) fuel r st' = (st'', Ok r') ∧
    store st'' !! r' = Some out).
Proof.
  intros Hd Hfuel.
  destruct (merge_sort_pure (E:=E) k fuel data S st Hd Hfuel)
    as (st1 & r1 & out1 & Hrun1 & _ & _ & Hr1 & Hsorts1).
  destruct (insertion_sort_pure (E:=E) k fuel data S st Hd Hfuel)
    as (st2 & r2 & out2 & Hrun2 & _ & _ & Hr2 & Hsorts2).
  split_and!.
  - intros Hord. split.
    + exists st1, r1. by rewrite <- (sorts_sorted_id k S out1 Hord Hsorts1).
    + exists st2, r2. by rewrite <- (sorts_sorted_id k S out2 Hord Hsorts2).
  - destruct Hsorts1 as (Hperm & Hord & _).
    destruct (merge_sort_pure (E:=E) k fuel r1 out1 st1 Hr1)
      as (st' & r' & out' & Hrun' & _ & _ & Hr' & Hsorts');
      [by rewrite <- Hperm|].
    rewrite (sorts_sorted_id k out1 out' Hord Hsorts') in Hr'.
    by exists st1, r1, out1, st', r'.
  - destruct Hsorts2 as (Hperm & Hord & _).
    destruct (insertion_sort_pure (E:=E) k fuel r2 out2 st2 Hr2)
      as (st' & r' & out' & Hrun' & _ & _ & Hr' & Hsorts');
      [by rewrite <- Hperm|].
    rewrite (sorts_sorted_id k out2 out' Hord Hsorts') in Hr'.
    by exists st2, r2, out2, st', r'.
Qed.

Lemma sorts_idempotent_witness :
  let st := one_list odds in
  store st !! 0%nat = Some odds ∧
  (length odds + 2 ≤ 7)%nat ∧
  ordered id odds ∧
  (∃ st' r, merge_sort (pure_key unit id) 7 0%nat st = (st', Ok r) ∧
    store st' !! r = Some odds) ∧
  (∃ st' r, insertion_sort (pure_key unit id) 7 0%nat st = (st', Ok r) ∧
    store st' !! r = Some odds).
Proof.
  intros st.
  assert (ordered id odds) as Hodds.
  { intros i x y Hx Hy.
    do 5 (destruct i as [|i]; [by simplify_eq/=|]). done. }
  split; [reflexivity|]. split; [simpl; lia|]. split; [exact Hodds|].
  apply (proj1 (sorts_idempotent (E:=unit) id 7 0%nat odds st
    eq_refl ltac:(simpl; lia)) Hodds).
Defined.

(** C7. On every input list the outputs of [merge_sort] and
    [insertion_sort] have the same key projection: mapping the key
    function over the two outputs gives equal lists. *)
Theorem sorts_same_key_projection {A K E : Type} `{KeyOrder K}
    (k : A → K) (fuel : nat) (data : loc) (S : list A) (st : state A) :
  store st !! data = Some S → (length S + 2 ≤ fuel)%nat →
  ∃ st1 r1 out1 st2 r2 out2,
    merge_sort (pure_key E k) fuel data st = (st1, Ok r1) ∧
    store st1 !! r1 = Some out1 ∧
    insertion_sort (pure_key E k) fuel data st = (st2, Ok r2) ∧
    store st2 !! r2 = Some out2 ∧
    k <$> out1 = k <$> out2.
Proof.
  intros Hd Hfuel.
  destruct (merge_sort_pure (E:=E) k fuel data S st Hd Hfuel)
    as (st1 & r1 & out1 & Hrun1 & _ & _ & Hr1 & Hsorts1).
  destruct (insertion_sort_pure (E:=E) k fuel data S st Hd Hfuel)
    as (st2 & r2 & out2 & Hrun2 & _ & _ & Hr2 & Hsorts2).
  exists st1, r1, out1, st2, r2, out2. split_and!; [done..|].
  by rewrite (sorts_unique k S out1 out2).
Qed.

Lemma sorts_same_key_projection_witness :
  store (one_list unsorted) !! 0%nat = Some unsorted ∧
  (length unsorted + 2 ≤ 6)%nat ∧
  ∃ st1 r1 out1 st2 r2 out2,
    merge_sort (pure_key string snd) 6 0%nat (one_list unsorted)
      = (st1, Ok r1) ∧
    store st1 !! r1 = Some out1 ∧
    insertion_sort (pure_key string snd) 6 0%nat (one_list unsorted)
      = (st2, Ok r2) ∧
    store st2 !! r2 = Some out2 ∧
    snd <$> out1 = snd <$> out2.
Proof.
  split; [reflexivity|]. split; [simpl; lia|].
  apply (sorts_same_key_projection (E:=string) snd 6 0%nat unsorted
    (one_list unsorted)); [reflexivity|simpl; lia].
Defined.

(** C8. A failure of the key function propagates at once: if, during a
    call of any of the four functions, the key function is called on an
    item [x] on which it raises [e], then the outcome of the call is that
    exception, so no list and no index is returned, and the raising call is
    the last key call of the run: nothing is retried and nothing is
    computed after it. *)
Theorem key_failure_propagates {A K E : Type} `{KeyOrder K}
    (key : A → E + K) (fuel : nat) (data : loc) (target : K)
    (st : state A) (x : A) (e : E) :
  key x = inl e →
  (x ∈ new_calls st (merge_sort key fuel data st).1 →
    propagated key st x e (merge_sort key fuel data st)) ∧
  (x ∈ new_calls st (insertion_sort key fuel data st).1 →
    propagated key st x e (insertion_sort key fuel data st)) ∧
  (x ∈ new_calls st (binary_search key fuel data target st).1 →
    propagated key st x e (binary_search key fuel data target st)) ∧
  (x ∈ new_calls st (linear_search key data target st).1 →
    propagated key st x e (linear_search key data target st)).
Proof.
  intros Hk. unfold new_calls, propagated. split_and!; intros Hx.
  - by apply disciplined_failure; [apply disciplined_merge_sort|..].
  - by apply disciplined_failure; [apply disciplined_insertion_sort|..].
  - by apply disciplined_failure; [apply disciplined_binary_search|..].
  - by apply disciplined_failure; [apply disciplined_linear_search|..].
Qed.

Lemma key_failure_propagates_witness :
  let x := ("z"%string, 3) in
  let e := "bad item"%string in
  let st := one_list unsorted in
  failing_key x = inl e ∧
  (x ∈ new_calls st (merge_sort failing_key 6 0%nat st).1 ∧
    propagated failing_key st x e (merge_sort failing_key 6 0%nat st)) ∧
  (x ∈ new_calls st (insertion_sort failing_key 6 0%nat st).1 ∧
    propagated failing_key st x e (insertion_sort failing_key 6 0%nat st)) ∧
  (x ∈ new_calls st (binary_search failing_key 6 0%nat 2 st).1 ∧
    propagated failing_key st x e (binary_search failing_key 6 0%nat 2 st)) ∧
  (x ∈ new_calls st (linear_search failing_key 0%nat 2 st).1 ∧
    propagated failing_key st x e (linear_search failing_key 0%nat 2 st)).
Proof.
  intros x e st.
  pose proof (key_failure_propagates failing_key 6 0%nat 2 st x e eq_refl)
    as (Hm & Hi & Hb & Hl).
  assert (∀ l : list (string * Z), In x l → x ∈ l) as Hin.
  { intros l. apply list_elem_of_In. }
  split; [reflexivity|]. split_and!.
  - apply Hin. vm_compute. tauto.
  - apply Hm, Hin. vm_compute. tauto.
  - apply Hin. vm_compute. tauto.
  - apply Hi, Hin. vm_compute. tauto.
  - apply Hin. vm_compute. tauto.
  - apply Hb, Hin. vm_compute. tauto.
  - apply Hin. vm_compute. tauto.
  - apply Hl, Hin. vm_compute. tauto.
Defined.

(** C9. Every call runs to completion: given fuel for [len + 2] steps,
    none of the four functions runs out of fuel, whatever the key function
    does; the recursion of [merge_sort] is well founded because the two
    halves of a list of length at least 2 are strictly shorter than it. *)
Theorem calls_complete {A K E : Type} `{KeyOrder K}
    (key : A → E + K) (fuel : nat) (data : loc) (S : list A) (target : K)
    (st : state A) :
  store st !! data = Some S → (length S + 2 ≤ fuel)%nat →
  (merge_sort key fuel data st).2 ≠ Timeout ∧
  (insertion_sort key fuel data st).2 ≠ Timeout ∧
  (binary_search key fuel data target st).2 ≠ Timeout ∧
  (linear_search key data target st).2 ≠ Timeout ∧
  ((2 ≤ length S)%nat →
    let mid := Z.of_nat (length S) / 2 in
    (length (py_slice S None (Some mid)) < length S)%nat ∧
    (length (py_slice S (Some mid) None) < length S)%nat).
Proof.
  destruct st as [s c]. intros Hd Hfuel.
  pose proof (agrees_key_view key target) as Hagree.
  split_and!.
  - eapply spec_completes, merge_sort_spec; done.
  - eapply spec_completes, insertion_sort_spec; done.
  - eapply spec_completes, binary_search_completes; done.
  - eapply spec_completes, linear_search_spec; done.
  - intros Hlen mid. subst mid. rewrite <- (Nat2Z.inj_div _ 2).
    assert (0 < length S / 2 < length S)%nat as Hm.
    { split; [apply Nat.div_str_pos; lia|apply Nat.div_lt; lia]. }
    rewrite py_slice_to, py_slice_from by lia.
    rewrite length_take, length_drop. lia.
Qed.

Lemma calls_complete_witness :
  let st := one_list unsorted in
  store st !! 0%nat = Some unsorted ∧
  (length unsorted + 2 ≤ 6)%nat ∧
  (merge_sort failing_key 6 0%nat st).2 ≠ Timeout ∧
  (insertion_sort failing_key 6 0%nat st).2 ≠ Timeout ∧
  (binary_search failing_key 6 0%nat 2 st).2 ≠ Timeout ∧
  (linear_search failing_key 0%nat 2 st).2 ≠ Timeout ∧
  ((2 ≤ length unsorted)%nat →
    let mid := Z.of_nat (length unsorted) / 2 in
    (length (py_slice unsorted None (Some mid)) < length unsorted)%nat ∧
    (length (py_slice unsorted (Some mid) None) < length unsorted)%nat).
Proof.
  intros st. split; [reflexivity|]. split; [simpl; lia|].
  apply (calls_complete failing_key 6 0%nat unsorted 2 st);
    [reflexivity|simpl; lia].
Defined.

(** C10. Whatever the list, sorted or not, an index returned by
    [binary_search] is a position of the list and the key of the item
    there equals the target. *)
Theorem binary_search_index_sound {A K E : Type} `{KeyOrder K}
    (key : A → E + K) (fuel : nat) (data : loc) (target : K)
    (S : list A) (st st' : state A) (i : Z) :
  store st !! data = Some S →
  binary_search key fuel data target st = (st', Ok (Some i)) →
  0 ≤ i < Z.of_nat (length S) ∧
  ∃ x, S !! Z.to_nat i = Some x ∧ key x = inr target.
Proof.
  destruct st as [s c]. simpl. intros Hd Hrun.
  unfold binary_search in Hrun. rewrite (run_len _ _ _ _ _ Hd) in Hrun.
  apply (search_loop_sound key fuel data target S) in Hrun
    as (n & x & v & -> & Hx & Hv & Heq%keq_spec); [|done|lia].
  subst v. rewrite Nat2Z.id. apply lookup_lt_Some in Hx as Hn.
  split; [lia|]. by exists x.
Qed.

Lemma binary_search_index_sound_witness :
  let st := one_list unsorted in
  let st' := State [unsorted] [("y"%string, 1)] in
  store st !! 0%nat = Some unsorted ∧
  binary_search (pure_key unit snd) 6 0%nat 1 st = (st', Ok (Some 1)) ∧
  0 ≤ 1 < Z.of_nat (length unsorted) ∧
  ∃ x, unsorted !! Z.to_nat 1 = Some x ∧ pure_key unit snd x = inr 1.
Proof.
  intros st st'. split; [reflexivity|]. split; [reflexivity|].
  apply (binary_search_index_sound (pure_key unit snd) 6 0%nat 1 unsorted
    st st' 1); reflexivity.
Defined.


(** * Further properties of the toolkit *)

(** ** The merge on its own *)

Section MergeAlone.
Context {A K E : Type} `{KeyOrder K}.

Lemma _merge_pure (k : A → K) fuel (left right : loc) (L R : list A) st :
  store st !! left = Some L → store st !! right = Some R →
  (length L + length R < fuel)%nat →
  ∃ st' junk,
    _merge (pure_key E k) fuel left right st = (st', Ok (length (store st))) ∧
    store st' = store st ++ merge_fun k L R :: junk.
Proof.
  destruct st as [s c]. simpl. intros HL HR Hfuel.
  destruct (spec_pure_ok (E:=E) k _ _ _
    (_merge_spec _ k (agrees_pure k) fuel left right L R s c HL HR Hfuel))
    as (st' & r & Hrun & -> & junk & Hst).
  by exists st', junk.
Qed.
End MergeAlone.

(** X1. [_merge] of any two lists, sorted or not, returns a list that did
    not exist before and holds exactly the items of the two (so its length
    is the sum of theirs), and it leaves both lists and every other
    existing list as they were. *)
Theorem merge_gathers_both {A K E : Type} `{KeyOrder K}
    (k : A → K) (fuel : nat) (left right : loc) (L R : list A)
    (st : state A) :
  store st !! left = Some L → store st !! right = Some R →
  (length L + length R < fuel)%nat →
  ∃ st' r out,
    _merge (pure_key E k) fuel left right st = (st', Ok r) ∧
    store st' !! r = Some out ∧ store st !! r = None ∧
    (∀ d l, store st !! d = Some l → store st' !! d = Some l) ∧
    L ++ R ≡ₚ out ∧ length out = (length L + length R)%nat.
Proof.
  intros HL HR Hfuel.
  destruct (_merge_pure (E:=E) k fuel left right L R st HL HR Hfuel)
    as (st' & junk & Hrun & Hst).
  exists st', (length (store st)), (merge_fun k L R).
  split_and!; [done| |by apply lookup_ge_None| | |].
  - rewrite Hst. by apply list_lookup_middle.
  - intros d l Hl. rewrite Hst. by apply lookup_app_l_Some.
  - apply merge_fun_perm.
  - by rewrite <- merge_fun_perm, length_app.
Qed.

Lemma merge_gathers_both_witness :
  let st := State [[3; 1]; [2; 2; 0]] [] in
  store st !! 0%nat = Some [3; 1] ∧ store st !! 1%nat = Some [2; 2; 0] ∧
  (length [3; 1] + length [2; 2; 0] < 6)%nat ∧
  ∃ st' r out,
    _merge (pure_key unit id) 6 0%nat 1%nat st = (st', Ok r) ∧
    store st' !! r = Some out ∧ store st !! r = None ∧
    (∀ d l, store st !! d = Some l → store st' !! d = Some l) ∧
    [3; 1] ++ [2; 2; 0] ≡ₚ out ∧
    length out = (length [3; 1] + length [2; 2; 0])%nat.
Proof.
  intros st. split; [reflexivity|]. split; [reflexivity|].
  split; [simpl; lia|].
  apply (merge_gathers_both (E:=unit) id 6 0%nat 1%nat [3; 1] [2; 2; 0] st);
    [reflexivity|reflexivity|simpl; lia].
Defined.

(** X2. [_merge] of two lists that are each in non-decreasing key order
    returns a list in non-decreasing key order in which, for every key,
    the items of the left list come before those of the right list, each
    group in its own order: a tie is taken from the left. *)
Theorem merge_of_sorted {A K E : Type} `{KeyOrder K}
    (k : A → K) (fuel : nat) (left right : loc) (L R : list A)
    (st : state A) :
  store st !! left = Some L → store st !! right = Some R →
  (length L + length R < fuel)%nat →
  ordered k L → ordered k R →
  ∃ st' r out,
    _merge (pure_key E k) fuel left right st = (st', Ok r) ∧
    store st' !! r = Some out ∧ ordered k out ∧
    ∀ t, with_key k t out = with_key k t L ++ with_key k t R.
Proof.
  intros HL HR Hfuel HoL%ordered_Sorted HoR%ordered_Sorted.
  destruct (_merge_pure (E:=E) k fuel left right L R st HL HR Hfuel)
    as (st' & junk & Hrun & Hst).
  exists st', (length (store st)), (merge_fun k L R). split_and!; [done| | |].
  - rewrite Hst. by apply list_lookup_middle.
  - by apply ordered_Sorted, merge_fun_sorted.
  - intros t. by apply merge_fun_with_key.
Qed.

Lemma merge_of_sorted_witness :
  let L := [("x"%string, 1); ("y"%string, 3)] in
  let R := [("z"%string, 1); ("w"%string, 2)] in
  let st := State [L; R] [] in
  store st !! 0%nat = Some L ∧ store st !! 1%nat = Some R ∧
  (length L + length R < 5)%nat ∧ ordered snd L ∧ ordered snd R ∧
  ∃ st' r out,
    _merge (pure_key unit snd) 5 0%nat 1%nat st = (st', Ok r) ∧
    store st' !! r = Some out ∧ ordered snd out ∧
    ∀ t, with_key snd t out = with_key snd t L ++ with_key snd t R.
Proof.
  intros L R st.
  assert (ordered snd L) as HoL.
  { intros i x y Hx Hy. do 2 (destruct i as [|i]; [by simplify_eq/=|]).
    done. }
  assert (ordered snd R) as HoR.
  { intros i x y Hx Hy. do 2 (destruct i as [|i]; [by simplify_eq/=|]).
    done. }
  split; [reflexivity|]. split; [reflexivity|]. split; [simpl; lia|].
  split; [exact HoL|]. split; [exact HoR|].
  apply (merge_of_sorted (E:=unit) snd 5 0%nat 1%nat L R st);
    [reflexivity|reflexivity|simpl; lia|exact HoL|exact HoR].
Defined.

(** X3. The two sorts are interchangeable: on every input, with a key
    function that does not raise, [merge_sort] and [insertion_sort] return
    the same list, item for item. *)
Theorem sorts_return_same_list {A K E : Type} `{KeyOrder K}
    (k : A → K) (fuel : nat) (data : loc) (S : list A) (st : state A) :
  store st !! data = Some S → (length S + 2 ≤ fuel)%nat →
  ∃ st1 r1 st2 r2 out,
    merge_sort (pure_key E k) fuel data st = (st1, Ok r1) ∧
    insertion_sort (pure_key E k) fuel data st = (st2, Ok r2) ∧
    store st1 !! r1 = Some out ∧ store st2 !! r2 = Some out.
Proof.
  intros Hd Hfuel.
  destruct (merge_sort_pure (E:=E) k fuel data S st Hd Hfuel)
    as (st1 & r1 & out1 & Hrun1 & _ & _ & Hr1 & Hsorts1).
  destruct (insertion_sort_pure (E:=E) k fuel data S st Hd Hfuel)
    as (st2 & r2 & out2 & Hrun2 & _ & _ & Hr2 & Hsorts2).
  exists st1, r1, st2, r2, out1. split_and!; [done..|].
  by rewrite (sorts_unique k S out1 out2).
Qed.

Lemma sorts_return_same_list_witness :
  let st := one_list unsorted in
  store st !! 0%nat = Some unsorted ∧ (length unsorted + 2 ≤ 6)%nat ∧
  ∃ st1 r1 st2 r2 out,
    merge_sort (pure_key unit snd) 6 0%nat st = (st1, Ok r1) ∧
    insertion_sort (pure_key unit snd) 6 0%nat st = (st2, Ok r2) ∧
    store st1 !! r1 = Some out ∧ store st2 !! r2 = Some out.
Proof.
  intros st. split; [reflexivity|]. split; [simpl; lia|].
  apply (sorts_return_same_list (E:=unit) snd 6 0%nat unsorted st);
    [reflexivity|simpl; lia].
Defined.

(** X4. On a list of at most one item both sorts return a new copy of it
    without calling the key function at all, so even a key function that
    raises on the item goes unnoticed. *)
Theorem short_lists_are_copied {A K E : Type} `{KeyOrder K}
    (key : A → E + K) (fuel : nat) (data : loc) (S : list A)
    (st : state A) :
  store st !! data = Some S → (length S ≤ 1)%nat → (1 ≤ fuel)%nat →
  merge_sort key fuel data st
    = (State (store st ++ [S]) (calls st), Ok (length (store st))) ∧
  insertion_sort key fuel data st
    = (State (store st ++ [S]) (calls st), Ok (length (store st))).
Proof.
  destruct st as [s c]. simpl. intros Hd Hlen Hfuel. split.
  - destruct fuel as [|fuel]; [lia|]. cbn [merge_sort].
    rewrite (run_len _ _ _ _ _ Hd).
    destruct (Z.leb_spec (Z.of_nat (length S)) 1); [|lia].
    unfold list_copy. by rewrite (run_read _ _ _ _ _ Hd).
  - unfold insertion_sort. rewrite (run_list_copy _ _ _ _ _ Hd).
    rewrite (run_len _ S) by (by apply list_lookup_middle).
    unfold py_range. by destruct S as [|a [|b S]]; [..|simpl in Hlen; lia].
Qed.

Lemma short_lists_are_copied_witness :
  let S := [("z"%string, 3)] in
  let st := one_list S in
  store st !! 0%nat = Some S ∧ (length S ≤ 1)%nat ∧ (1 ≤ 1)%nat ∧
  merge_sort failing_key 1 0%nat st
    = (State (store st ++ [S]) (calls st), Ok (length (store st))) ∧
  insertion_sort failing_key 1 0%nat st
    = (State (store st ++ [S]) (calls st), Ok (length (store st))).
Proof.
  intros S st. split; [reflexivity|]. split; [simpl; lia|].
  split; [lia|].
  apply (short_lists_are_copied failing_key 1 0%nat S st);
    [reflexivity|simpl; lia|lia].
Defined.

(** ** The searches only read *)

Section ReadOnly.
Context {A K E : Type} `{KeyOrder K}.
Variable key : A → E + K.

#[local] Abbreviation M := (@M A E).

Lemma reads_only_ret {X} (x : X) : reads_only (ret x : M X).
Proof. done. Qed.

Lemma reads_only_timeout {X} : reads_only (timeout : M X).
Proof. done. Qed.

Lemma reads_only_raise {X} e : reads_only (raise e : M X).
Proof. done. Qed.

Lemma reads_only_read d : reads_only (read d : M _).
Proof. intros st. unfold read. by destruct (store st !! d). Qed.

Lemma reads_only_call_key x : reads_only (call_key key x).
Proof. done. Qed.

Lemma reads_only_bind {X Y} (m : M X) (f : X → M Y) :
  reads_only m → (∀ x, reads_only (f x)) → reads_only (bind m f).
Proof.
  intros Hm Hf st. specialize (Hm st). unfold bind.
  destruct (m st) as [st1 [x|e|]]; simpl in *; [|done..].
  by rewrite Hf.
Qed.

#[local] Ltac ro :=
  repeat first
    [ assumption
    | apply reads_only_ret | apply reads_only_timeout
    | apply reads_only_raise | apply reads_only_read
    | apply reads_only_call_key
    | apply reads_only_bind; [|intros ?]
    | match goal with
      | |- reads_only (if ?b then _ else _) => destruct b
      | |- reads_only (match ?o with Some _ => _ | None => _ end) =>
          destruct o
      end ].

Lemma reads_only_search_loop fuel :
  ∀ data target low high,
  reads_only (search_loop key fuel data target low high).
Proof.
  induction fuel as [|fuel IH]; intros; cbn [search_loop]; cbv zeta.
  - ro.
  - destruct (low <=? high); [|ro].
    apply reads_only_bind; [unfold getitem; ro|]. intros x.
    apply reads_only_bind; [ro|]. intros v.
    destruct (keq v target); [ro|]. destruct (klt v target); apply IH.
Qed.

Lemma reads_only_binary_search fuel data target :
  reads_only (binary_search key fuel data target).
Proof.
  unfold binary_search. apply reads_only_bind; [unfold len; ro|].
  intros n. apply reads_only_search_loop.
Qed.

Lemma reads_only_scan target :
  ∀ items i, reads_only (scan key items i target).
Proof.
  induction items as [|x items IH]; intros; cbn [scan]; [ro|].
  apply reads_only_bind; [ro|]. intros v.
  destruct (keq v target); [ro|apply IH].
Qed.

Lemma reads_only_linear_search data target :
  reads_only (linear_search key data target).
Proof.
  unfold linear_search. apply reads_only_bind; [ro|]. intros items.
  apply reads_only_scan.
Qed.
End ReadOnly.

(** X5. The searches only read: whatever the list, the key function, the
    fuel and the way the call ends, [binary_search] and [linear_search]
    create no list and leave every list exactly as it was. *)
Theorem searches_change_nothing {A K E : Type} `{KeyOrder K}
    (key : A → E + K) (fuel : nat) (data : loc) (target : K)
    (st : state A) :
  store (binary_search key fuel data target st).1 = store st ∧
  store (linear_search key data target st).1 = store st.
Proof.
  split; [apply reads_only_binary_search|apply reads_only_linear_search].
Qed.

(** X6. Sorting establishes what [binary_search] needs: a binary search
    in the list returned by either sort finds the target exactly when some
    item of the unsorted input has that key, and the index it returns
    holds such an item. *)
Theorem sort_then_search {A K E : Type} `{KeyOrder K}
    (k : A → K) (fuel : nat) (data : loc) (S : list A) (target : K)
    (st : state A) :
  store st !! data = Some S → (length S + 2 ≤ fuel)%nat →
  (∃ st1 r out st2 res,
    merge_sort (pure_key E k) fuel data st = (st1, Ok r) ∧
    store st1 !! r = Some out ∧
    binary_search (pure_key E k) fuel r target st1 = (st2, Ok res) ∧
    ((∃ x, x ∈ S ∧ k x = target) →
      ∃ (n : nat) x, res = Some (Z.of_nat n) ∧ out !! n = Some x ∧
        x ∈ S ∧ k x = target) ∧
    ((∀ x, x ∈ S → k x ≠ target) → res = None)) ∧
  (∃ st1 r out st2 res,
    insertion_sort (pure_key E k) fuel data st = (st1, Ok r) ∧
    store st1 !! r = Some out ∧
    binary_search (pure_key E k) fuel r target st1 = (st2, Ok res) ∧
    ((∃ x, x ∈ S ∧ k x = target) →
      ∃ (n : nat) x, res = Some (Z.of_nat n) ∧ out !! n = Some x ∧
        x ∈ S ∧ k x = target) ∧
    ((∀ x, x ∈ S → k x ≠ target) → res = None)).
Proof.
  intros Hd Hfuel.
  assert (∀ st1 r out,
    store st1 !! r = Some out → sorts k S out →
    ∃ st2 res,
      binary_search (pure_key E k) fuel r target st1 = (st2, Ok res) ∧
      ((∃ x, x ∈ S ∧ k x = target) →
        ∃ (n : nat) x, res = Some (Z.of_nat n) ∧ out !! n = Some x ∧
          x ∈ S ∧ k x = target) ∧
      ((∀ x, x ∈ S → k x ≠ target) → res = None)) as Hsearch.
  { intros [s1 c1] r out Hr (Hperm & Hord%ordered_Sorted & _).
    destruct (spec_pure_ok (E:=E) k _ _ _
      (binary_search_spec _ k (agrees_pure k) fuel r target out s1 c1
        Hr Hord ltac:(rewrite <- Hperm; lia))) as (st2 & res & Hrun & _ & Hres).
    exists st2, res. split; [done|]. split.
    - intros (x & Hx & Hkx). destruct res as [m|].
      + destruct Hres as (n & y & -> & Hy & Hky). exists n, y.
        split_and!; [done..| |done]. rewrite Hperm.
        by eapply list_elem_of_lookup_2.
      + destruct (Hres x); [by rewrite <- Hperm|done].
    - intros Hnone. destruct res as [m|]; [|done].
      destruct Hres as (n & y & _ & Hy & Hky).
      destruct (Hnone y); [|done]. rewrite Hperm.
      by eapply list_elem_of_lookup_2. }
  split.
  - destruct (merge_sort_pure (E:=E) k fuel data S st Hd Hfuel)
      as (st1 & r & out & Hrun & _ & _ & Hr & Hsorts).
    destruct (Hsearch st1 r out Hr Hsorts) as (st2 & res & Hrun2 & Hres).
    by exists st1, r, out, st2, res.
  - destruct (insertion_sort_pure (E:=E) k fuel data S st Hd Hfuel)
      as (st1 & r & out & Hrun & _ & _ & Hr & Hsorts).
    destruct (Hsearch st1 r out Hr Hsorts) as (st2 & res & Hrun2 & Hres).
    by exists st1, r, out, st2, res.
Qed.

Lemma sort_then_search_witness :
  let st := one_list unsorted in
  store st !! 0%nat = Some unsorted ∧ (length unsorted + 2 ≤ 6)%nat ∧
  (∃ st1 r out st2 res,
    merge_sort (pure_key unit snd) 6 0%nat st = (st1, Ok r) ∧
    store st1 !! r = Some out ∧
    binary_search (pure_key unit snd) 6 r 2 st1 = (st2, Ok res) ∧
    ((∃ x, x ∈ unsorted ∧ x.2 = 2) →
      ∃ (n : nat) x, res = Some (Z.of_nat n) ∧ out !! n = Some x ∧
        x ∈ unsorted ∧ x.2 = 2) ∧
    ((∀ x, x ∈ unsorted → x.2 ≠ 2) → res = None)) ∧
  (∃ st1 r out st2 res,
    insertion_sort (pure_key unit snd) 6 0%nat st = (st1, Ok r) ∧
    store st1 !! r = Some out ∧
    binary_search (pure_key unit snd) 6 r 2 st1 = (st2, Ok res) ∧
    ((∃ x, x ∈ unsorted ∧ x.2 = 2) →
      ∃ (n : nat) x, res = Some (Z.of_nat n) ∧ out !! n = Some x ∧
        x ∈ unsorted ∧ x.2 = 2) ∧
    ((∀ x, x ∈ unsorted → x.2 ≠ 2) → res = None)).
Proof.
  intros st. split; [reflexivity|]. split; [simpl; lia|].
  apply (sort_then_search (E:=unit) snd 6 0%nat unsorted 2 st);
    [reflexivity|simpl; lia].
Defined.

(** X7. On a list in non-decreasing key order the two searches agree on
    whether the target is there, and when it is, the index returned by
    [linear_search] is at most the one returned by [binary_search]. *)
Theorem searches_agree_on_sorted {A K E : Type} `{KeyOrder K}
    (k : A → K) (fuel : nat) (data : loc) (S : list A) (target : K)
    (st : state A) :
  store st !! data = Some S → ordered k S → (length S + 2 ≤ fuel)%nat →
  ∃ st1 rb st2 rl,
    binary_search (pure_key E k) fuel data target st = (st1, Ok rb) ∧
    linear_search (pure_key E k) data target st = (st2, Ok rl) ∧
    (rb = None ↔ rl = None) ∧
    (∀ i j, rb = Some i → rl = Some j → j ≤ i).
Proof.
  destruct st as [s c]. simpl. intros Hd Hord%ordered_Sorted Hfuel.
  destruct (spec_pure_ok (E:=E) k _ _ _
    (binary_search_spec _ k (agrees_pure k) fuel data target S s c
      Hd Hord Hfuel)) as (st1 & rb & Hrun1 & _ & Hb).
  destruct (spec_pure_ok (E:=E) k _ _ _
    (linear_search_spec _ k (agrees_pure k) data target S s c Hd))
    as (st2 & rl & Hrun2 & _ & Hl).
  exists st1, rb, st2, rl. split_and!; [done..| |].
  - destruct rb as [i|], rl as [j|]; split; try done.
    + destruct Hb as (n & x & _ & Hx & Hkx). intros _.
      destruct (Hl x); [by eapply list_elem_of_lookup_2|done].
    + destruct Hl as (n & x & _ & Hx & Hkx & _). intros _.
      destruct (Hb x); [by eapply list_elem_of_lookup_2|done].
  - intros i j -> ->.
    destruct Hb as (n & x & -> & Hx & Hkx).
    destruct Hl as (n' & y & -> & Hy & Hky & Hfirst).
    destruct (decide (n < n')%nat) as [Hlt|Hge]; [|lia].
    by destruct (Hfirst n x Hlt Hx).
Qed.

Lemma searches_agree_on_sorted_witness :
  let st := one_list odds in
  store st !! 0%nat = Some odds ∧ ordered id odds ∧
  (length odds + 2 ≤ 7)%nat ∧
  ∃ st1 rb st2 rl,
    binary_search (pure_key unit id) 7 0%nat 7 st = (st1, Ok rb) ∧
    linear_search (pure_key unit id) 0%nat 7 st = (st2, Ok rl) ∧
    (rb = None ↔ rl = None) ∧
    (∀ i j, rb = Some i → rl = Some j → j ≤ i).
Proof.
  intros st.
  assert (ordered id odds) as Hodds.
  { intros i x y Hx Hy.
    do 5 (destruct i as [|i]; [by simplify_eq/=|]). done. }
  split; [reflexivity|]. split; [exact Hodds|]. split; [simpl; lia|].
  apply (searches_agree_on_sorted (E:=unit) id 7 0%nat odds 7 st);
    [reflexivity|exact Hodds|simpl; lia].
Defined.

(** ** Counting the key calls of the searches *)

Section SearchCalls.
Context {A K E : Type} `{KeyOrder K}.
Variable key : A → E + K.

#[local] Abbreviation M := (@M A E).

(** Two statements about one run hold together. *)
Lemma spec_conj {X} (m : M X) st (φ ψ : state A → X → Prop) :
  spec key m st φ → spec key m st ψ →
  spec key m st (λ st' x, φ st' x ∧ ψ st' x).
Proof.
  intros (st1 & o1 & H1 & P1) (st2 & o2 & H2 & P2).
  rewrite H1 in H2. injection H2 as <- <-.
  exists st1, o1. split; [done|]. by destruct o1.
Qed.

Lemma probes_mono (m m' : nat) : (m' ≤ m)%nat → (probes m' ≤ probes m)%nat.
Proof.
  intros Hle. destruct m' as [|m']; [simpl; lia|].
  destruct m as [|m]; [lia|]. simpl probes.
  apply le_n_S, Nat.log2_le_mono. lia.
Qed.

(** Halving the range costs one probe. *)
Lemma probes_half (m m' : nat) :
  (1 ≤ m)%nat → (2 * m' ≤ m)%nat → (S (probes m') ≤ probes m)%nat.
Proof.
  intros Hm Hhalf. destruct m as [|m]; [lia|].
  destruct m' as [|m']; [simpl; lia|]. simpl probes.
  apply le_n_S. rewrite <- Nat.log2_double by lia.
  apply Nat.log2_le_mono. lia.
Qed.

Lemma search_loop_calls fuel (data : loc) (target : K) (S : list A) :
  ∀ (low high : Z) s c,
  s !! data = Some S →
  0 ≤ low → high < Z.of_nat (length S) →
  (Z.to_nat (high - low + 1) < fuel)%nat →
  spec key (search_loop key fuel data target low high) (State s c)
    (λ st' _, ∃ t, calls st' = c ++ t ∧
      (length t ≤ probes (Z.to_nat (high - low + 1)))%nat).
Proof.
  induction fuel as [|fuel IH]; intros low high s c Hd Hlow Hhigh Hfuel;
    [lia|].
  cbn [search_loop]. destruct (Z.leb_spec low high) as [Hle|Hgt].
  2: { apply spec_ret. exists []. rewrite app_nil_r. split; [done|].
       simpl. lia. }
  pose proof (Z.div_mod (low + high) 2 ltac:(lia)) as Hdm.
  pose proof (Z.mod_pos_bound (low + high) 2 ltac:(lia)) as Hmb.
  set (mid := (low + high) / 2) in *.
  destruct (lookup_lt_is_Some_2 S (Z.to_nat mid)) as [x Hx]; [lia|].
  unfold spec. rewrite (run_getitem _ _ _ _ _ _ _ _ Hd Hx) by lia.
  destruct (key x) as [e|v] eqn:Hkx.
  { eapply spec_raised; [by apply run_call_key_raise|done]. }
  rewrite (run_call_key _ _ _ _ _ _ Hkx).
  destruct (keq v target).
  { apply spec_ret. exists [x]. split; [done|].
    apply (probes_mono _ 1). lia. }
  destruct (klt v target).
  - eapply spec_mono; [apply IH; first [done|lia]|].
    intros st' _ (t & Hc & Hlen). exists (x :: t).
    split; [by rewrite Hc, <- app_assoc|]. simpl.
    etrans; [apply le_n_S, Hlen|]. apply probes_half; lia.
  - eapply spec_mono; [apply IH; first [done|lia]|].
    intros st' _ (t & Hc & Hlen). exists (x :: t).
    split; [by rewrite Hc, <- app_assoc|]. simpl.
    etrans; [apply le_n_S, Hlen|]. apply probes_half; lia.
Qed.

Lemma binary_search_calls fuel (data : loc) (target : K) (S : list A) s c :
  s !! data = Some S → (length S + 2 ≤ fuel)%nat →
  spec key (binary_search key fuel data target) (State s c)
    (λ st' _, ∃ t, calls st' = c ++ t ∧ (length t ≤ probes (length S))%nat).
Proof.
  intros Hd Hfuel. unfold binary_search, spec. rewrite (run_len _ _ _ _ _ Hd).
  eapply spec_mono.
  - apply search_loop_calls with (S := S); first [done|lia].
  - intros st' _ (t & Hc & Hlen). exists t. split; [done|].
    etrans; [exact Hlen|]. apply probes_mono. lia.
Qed.

(** The scan calls the key function on the items up to the one it stops
    at, in order, once each. *)
Lemma scan_calls (target : K) :
  ∀ (items : list A) (i : nat) s c,
  spec key (scan key items (Z.of_nat i) target) (State s c)
    (λ st' r,
      match r with
      | Some m => ∃ n : nat,
          m = Z.of_nat (i + n) ∧ calls st' = c ++ take (S n) items
      | None => calls st' = c ++ items
      end).
Proof.
  induction items as [|item items IH]; intros i s c.
  { apply spec_ret. by rewrite app_nil_r. }
  cbn [scan]. unfold spec.
  destruct (key item) as [e|v] eqn:Hk.
  { eapply spec_raised; [by apply run_call_key_raise|done]. }
  rewrite (run_call_key _ _ _ _ _ _ Hk).
  destruct (keq v target).
  - apply spec_ret. exists 0%nat. split; [f_equal; lia|done].
  - replace (Z.of_nat i + 1) with (Z.of_nat (S i)) by lia.
    eapply spec_mono; [apply IH|]. intros st' [m|] Hr.
    + destruct Hr as (n & -> & Hc). exists (S n).
      split; [f_equal; lia|]. by rewrite Hc, <- app_assoc.
    + by rewrite Hr, <- app_assoc.
Qed.

Lemma linear_search_calls (data : loc) (target : K) (S : list A) s c :
  s !! data = Some S →
  spec key (linear_search key data target) (State s c)
    (λ st' r,
      match r with
      | Some m => ∃ n : nat,
          m = Z.of_nat n ∧ calls st' = c ++ take (Datatypes.S n) S
      | None => calls st' = c ++ S
      end).
Proof.
  intros Hd. unfold linear_search, spec. rewrite (run_read _ _ _ _ _ Hd).
  apply (scan_calls target S 0).
Qed.
End SearchCalls.

(** X8. A binary search probes at most [log2 n + 1] items of a list of
    [n >= 1] items and none of an empty list, whether or not the list is
    sorted: the number of key calls is logarithmic in the length. *)
Theorem binary_search_probes_log {A K E : Type} `{KeyOrder K}
    (k : A → K) (fuel : nat) (data : loc) (S : list A) (target : K)
    (st : state A) :
  store st !! data = Some S → (length S + 2 ≤ fuel)%nat →
  ∃ st' r,
    binary_search (pure_key E k) fuel data target st = (st', Ok r) ∧
    (length (new_calls st st') ≤ probes (length S))%nat.
Proof.
  destruct st as [s c]. simpl. intros Hd Hfuel.
  destruct (spec_pure_ok (E:=E) k _ _ _
    (binary_search_calls _ fuel data target S s c Hd Hfuel))
    as (st' & r & Hrun & t & Hc & Hlen).
  exists st', r. split; [done|]. unfold new_calls. simpl.
  by rewrite Hc, drop_app_length.
Qed.

Lemma binary_search_probes_log_witness :
  let st := one_list unsorted in
  store st !! 0%nat = Some unsorted ∧ (length unsorted + 2 ≤ 6)%nat ∧
  ∃ st' r,
    binary_search (pure_key unit snd) 6 0%nat 7 st = (st', Ok r) ∧
    (length (new_calls st st') ≤ probes (length unsorted))%nat.
Proof.
  intros st. split; [reflexivity|]. split; [simpl; lia|].
  apply (binary_search_probes_log (E:=unit) snd 6 0%nat unsorted 7 st);
    [reflexivity|simpl; lia].
Defined.

(** X9. A linear search calls the key function on the items of the list
    from the first one up to and including the one it returns, in that
    order and once each, and on every item when it returns [None]; it
    never looks past the first match. *)
Theorem linear_search_stops_at_match {A K E : Type} `{KeyOrder K}
    (k : A → K) (data : loc) (S : list A) (target : K) (st : state A) :
  store st !! data = Some S →
  ∃ st' r,
    linear_search (pure_key E k) data target st = (st', Ok r) ∧
    match r with
    | Some m => ∃ n : nat,
        m = Z.of_nat n ∧ new_calls st st' = take (Datatypes.S n) S
    | None => new_calls st st' = S
    end.
Proof.
  destruct st as [s c]. simpl. intros Hd.
  destruct (spec_pure_ok (E:=E) k _ _ _
    (linear_search_calls _ data target S s c Hd))
    as (st' & r & Hrun & Hr).
  exists st', r. split; [done|]. unfold new_calls. simpl.
  destruct r as [m|].
  - destruct Hr as (n & -> & Hc). exists n.
    by rewrite Hc, drop_app_length.
  - by rewrite Hr, drop_app_length.
Qed.

Lemma linear_search_stops_at_match_witness :
  let st := one_list unsorted in
  store st !! 0%nat = Some unsorted ∧
  ∃ st' r,
    linear_search (pure_key unit snd) 0%nat 1 st = (st', Ok r) ∧
    match r with
    | Some m => ∃ n : nat,
        m = Z.of_nat n ∧ new_calls st st' = take (Datatypes.S n) unsorted
    | None => new_calls st st' = unsorted
    end.
Proof.
  intros st. split; [reflexivity|].
  apply (linear_search_stops_at_match (E:=unit) snd 0%nat unsorted 1 st).
  reflexivity.
Defined.

(** ** Counting the key calls of insertion sort *)

Section InsertionCalls.
Context {A K E : Type} `{KeyOrder K}.
Variables (key : A → E + K) (k : A → K).
Hypothesis Hagree : agrees key k.

(** Shifting from a gap at [q] takes at most [q] rounds of two key calls,
    the first round on the item left of the gap and on the held one. *)
Lemma shift_loop_calls fuel :
  ∀ (result : loc) (cur h : A) (p rest : list A) (q : nat) s c,
  s !! result = Some (take q p ++ h :: drop q p ++ rest) →
  (q ≤ length p)%nat → (q < fuel)%nat →
  spec key (shift_loop key fuel result cur (Z.of_nat q - 1)) (State s c)
    (λ st' _, ∃ t, calls st' = c ++ t ∧ (length t ≤ 2 * q)%nat ∧
      ∀ x, q ≠ 0%nat → p !! pred q = Some x → x ∈ t ∧ cur ∈ t).
Proof.
  induction fuel as [|fuel IH];
    intros result cur h p rest q s c Hres Hq Hfuel; [lia|].
  cbn [shift_loop]. unfold spec.
  destruct (Z.leb_spec 0 (Z.of_nat q - 1)) as [Hpos|Hneg].
  2: { eexists _, _. split; [done|]. exists []. simpl.
       rewrite app_nil_r. split_and!; [done|lia|]. intros x Hq0. lia. }
  destruct q as [|q]; [lia|].
  destruct (lookup_lt_is_Some_2 p q) as [x Hx]; [lia|].
  assert ((take (S q) p ++ h :: drop (S q) p ++ rest) !! q = Some x) as Hx'.
  { rewrite lookup_app_l by (rewrite length_take; lia).
    rewrite lookup_take_lt by lia. done. }
  rewrite (run_getitem _ _ _ _ _ _ _ _ Hres Hx') by lia.
  destruct (key x) as [e|v] eqn:Hkx.
  { eapply spec_raised; [by apply run_call_key_raise|done]. }
  rewrite (run_call_key _ _ _ _ _ _ Hkx).
  destruct (key cur) as [e|vc] eqn:Hkc.
  { eapply spec_raised; [by apply run_call_key_raise|done]. }
  rewrite (run_call_key _ _ _ _ _ _ Hkc).
  assert (∀ t : list A, x ∈ x :: cur :: t ∧ cur ∈ x :: cur :: t) as Hin.
  { intros t. split; [left|right; left]. }
  destruct (kgt v vc).
  - rewrite (run_getitem _ _ _ _ _ _ _ _ Hres Hx') by lia.
    rewrite (run_setitem _ _ _ (S q) _ _ _ _ Hres).
    2: { rewrite length_app, length_take, length_cons. lia. }
    2: lia.
    rewrite insert_at_take by done.
    replace (Z.of_nat (S q) - 1 - 1) with (Z.of_nat q - 1) by lia.
    eapply spec_mono.
    + apply (IH result cur x p rest q); [|lia|lia].
      rewrite list_lookup_insert_eq by (by eapply lookup_lt_Some).
      rewrite (take_S_r _ _ _ Hx), (drop_S _ _ _ Hx).
      by rewrite <- app_assoc.
    + intros st' j (t & Hc & Hlen & _). exists (x :: cur :: t).
      split_and!; [by rewrite Hc, <- !app_assoc|simpl; lia|].
      simpl. intros y _ Hy. by simplify_eq.
  - eexists _, _. split; [done|]. exists [x; cur]. simpl.
    split_and!; [by rewrite <- app_assoc|lia|].
    intros y _ Hy. by simplify_eq.
Qed.

(** One round that moves nothing. *)
Lemma run_shift_loop_stays {Y} fuel (result : loc) (l : list A) (x cur : A)
    (q : nat) (f : Z → @M A E Y) s c :
  s !! result = Some l → l !! q = Some x →
  key x = inr (k x) → key cur = inr (k cur) →
  kle (k x) (k cur) = true →
  bind (shift_loop key (S fuel) result cur (Z.of_nat q)) f (State s c)
  = f (Z.of_nat q) (State s ((c ++ [x]) ++ [cur])).
Proof.
  intros Hres Hx Hkx Hkc Hle. unfold bind at 1. cbn [shift_loop].
  destruct (Z.leb_spec 0 (Z.of_nat q)); [|lia].
  rewrite (run_getitem _ _ _ _ _ _ _ _ Hres Hx eq_refl).
  rewrite (run_call_key _ _ _ _ _ _ Hkx), (run_call_key _ _ _ _ _ _ Hkc).
  unfold kgt. by rewrite klt_spec, Hle.
Qed.

Lemma insertion_loop_calls fuel (result : loc) :
  ∀ (rest p : list A) s c,
  s !! result = Some (p ++ rest) →
  Sorted (le_by k) p →
  (length p + length rest ≤ fuel)%nat →
  spec key
    (for_each (seqZ (Z.of_nat (length p)) (Z.of_nat (length rest)))
      (λ i,
        bind (getitem result i) (λ current,
        bind (shift_loop key fuel result current (i - 1)) (λ j,
        setitem result (j + 1) current))))
    (State s c)
    (λ st' _, ∃ t, calls st' = c ++ t ∧
      (length t + length p * length p + (length p + length rest)
        ≤ (length p + length rest) * (length p + length rest) + length p)%nat
      ∧ (p ≠ [] → ∀ x, x ∈ rest → x ∈ t)
      ∧ (rest ≠ [] → ∀ x, p !! pred (length p) = Some x → x ∈ t)).
Proof.
  induction rest as [|cur rest IH]; intros p s c Hres Hp Hfuel.
  { apply spec_ret. exists []. rewrite app_nil_r. simpl.
    split_and!; [done|lia| |done]. by intros _ x ?%elem_of_nil. }
  rewrite seqZ_cons by (simpl; lia). cbn [for_each].
  unfold spec. rewrite !bind_assoc.
  rewrite (run_getitem _ _ _ (length p) cur _ _ _ Hres);
    [|by apply list_lookup_middle|done].
  rewrite bind_assoc. eapply spec_bind.
  { apply spec_conj.
    - apply (shift_loop_spec key k Hagree fuel result cur cur p rest
        (length p)); [|done| |simpl in Hfuel; lia].
      + by rewrite take_ge, drop_ge by lia.
      + intros x. rewrite drop_ge by lia. by intros ?%elem_of_nil.
    - apply (shift_loop_calls fuel result cur cur p rest (length p));
        [|done|simpl in Hfuel; lia].
      by rewrite take_ge, drop_ge by lia. }
  intros [s1 c1] j [(q & h & -> & Hst & Hgap) (t1 & Hc1 & Hlen1 & Hcov1)].
  simpl in Hst, Hc1. subst s1 c1.
  assert (result < length s)%nat as Hlt by (by eapply lookup_lt_Some).
  unfold spec.
  rewrite (run_setitem _ (take q p ++ h :: drop q p ++ rest) _ q).
  2: { by apply list_lookup_insert_eq. }
  2: { rewrite length_app, length_take, length_cons. destruct Hgap. lia. }
  2: lia.
  rewrite insert_at_take by (by destruct Hgap).
  rewrite list_insert_insert_eq.
  destruct (gap_at_sorts k q cur p (k cur) Hp Hgap) as [Hsorted _].
  pose proof (placed_perm q cur p) as Hperm.
  assert (length (placed q cur p) = S (length p)) as Hlenp.
  { rewrite Hperm, length_app. simpl. lia. }
  eapply spec_mono.
  - replace (Z.succ (Z.of_nat (length p)))
      with (Z.of_nat (length (placed q cur p))) by lia.
    replace (Z.pred (Z.of_nat (length (cur :: rest))))
      with (Z.of_nat (length rest)) by (simpl; lia).
    apply (IH (placed q cur p)); [|done|].
    + rewrite list_lookup_insert_eq by done. unfold placed.
      by rewrite <- app_assoc.
    + simpl in *. lia.
  - intros st' _ (t2 & Hc2 & Hlen2 & Hcov2 & _). exists (t1 ++ t2).
    split; [by rewrite Hc2, app_assoc|].
    rewrite length_app. rewrite Hlenp in Hlen2. simpl length in *.
    split_and!; [nia| |].
    + intros Hne x [->|Hx]%elem_of_cons.
      * destruct (lookup_lt_is_Some_2 p (pred (length p))) as [y Hy].
        { destruct p; [done|simpl; lia]. }
        apply elem_of_app. left. apply (Hcov1 y); [|done].
        by destruct p.
      * apply elem_of_app. right. apply Hcov2; [|done].
        intros Hnil. by rewrite Hnil in Hlenp.
    + intros _ x Hx. apply elem_of_app. left. apply (Hcov1 x); [|done].
      intros Hzero. destruct p; [done|done].
Qed.

Lemma insertion_sort_calls fuel (data : loc) (S : list A) s c :
  s !! data = Some S → (length S + 2 ≤ fuel)%nat →
  spec key (insertion_sort key fuel data) (State s c)
    (λ st' _, ∃ t, calls st' = c ++ t ∧
      (length t ≤ length S * (length S - 1))%nat ∧
      ((2 ≤ length S)%nat → ∀ x, x ∈ S → x ∈ t)).
Proof.
  intros Hd Hfuel. unfold insertion_sort, spec.
  rewrite (run_list_copy _ _ _ _ _ Hd).
  rewrite (run_len _ S) by (by apply list_lookup_middle).
  unfold py_range.
  eapply spec_bind with
    (φ := λ st' _, ∃ t, calls st' = c ++ t ∧
      (length t ≤ length S * (length S - 1))%nat ∧
      ((2 ≤ length S)%nat → ∀ x, x ∈ S → x ∈ t)).
  - destruct S as [|a S].
    + apply spec_ret. exists []. rewrite app_nil_r. simpl.
      split_and!; [done|lia|]. intros; lia.
    + replace (Z.of_nat (length (a :: S)) - 1) with (Z.of_nat (length S))
        by (simpl; lia).
      eapply spec_mono.
      * apply (insertion_loop_calls fuel (length s) S [a]).
        -- by apply list_lookup_middle.
        -- by repeat constructor.
        -- simpl in *. lia.
      * simpl. intros st' _ (t & Hc & Hlen & Hcov & Hlast).
        exists t. split_and!; [done|nia|].
        intros Hlen2 x [->|Hx]%elem_of_cons.
        -- apply Hlast; [|done]. destruct S; [simpl in Hlen2; lia|done].
        -- by apply Hcov.
  - intros st' _ Hpost. by apply spec_ret.
Qed.

(** On a list already in key order every round stops at once: nothing
    moves and each item but the first costs two key calls. *)
Lemma insertion_loop_sorted fuel (result : loc) :
  ∀ (rest p : list A) s c,
  s !! result = Some (p ++ rest) →
  Sorted (le_by k) (p ++ rest) → p ≠ [] →
  spec key
    (for_each (seqZ (Z.of_nat (length p)) (Z.of_nat (length rest)))
      (λ i,
        bind (getitem result i) (λ current,
        bind (shift_loop key (S fuel) result current (i - 1)) (λ j,
        setitem result (j + 1) current))))
    (State s c)
    (λ st' _, store st' = s ∧
      ∃ t, calls st' = c ++ t ∧ length t = (2 * length rest)%nat).
Proof.
  induction rest as [|cur rest IH]; intros p s c Hres Hsorted Hne.
  { apply spec_ret. split; [done|]. exists []. by rewrite app_nil_r. }
  rewrite seqZ_cons by (simpl; lia). cbn [for_each].
  unfold spec. rewrite !bind_assoc.
  rewrite (run_getitem _ _ _ (length p) cur _ _ _ Hres);
    [|by apply list_lookup_middle|done].
  rewrite bind_assoc.
  destruct (lookup_lt_is_Some_2 p (pred (length p))) as [x Hx].
  { destruct p; [done|simpl; lia]. }
  assert ((p ++ cur :: rest) !! pred (length p) = Some x) as Hx'.
  { by apply lookup_app_l_Some. }
  assert (kle (k x) (k cur) = true) as Hle.
  { eapply (sorted_lookup_le k _ (pred (length p)) (length p));
      [done|done|by apply list_lookup_middle|lia]. }
  destruct (key x) as [e|v] eqn:Hkx.
  { eexists _, (Raise (KeyRaised e)). split; [|by eauto].
    unfold bind at 1. cbn [shift_loop].
    destruct (Z.leb_spec 0 (Z.of_nat (length p) - 1));
      [|destruct p; [done|simpl in *; lia]].
    rewrite (run_getitem _ _ _ (pred (length p)) x _ _ _ Hres Hx')
      by (destruct p; [done|simpl; lia]).
    by rewrite (run_call_key_raise _ _ _ _ _ _ Hkx). }
  apply Hagree in Hkx as Hv. subst v.
  destruct (key cur) as [e|v] eqn:Hkc.
  { eexists _, (Raise (KeyRaised e)). split; [|by eauto].
    unfold bind at 1. cbn [shift_loop].
    destruct (Z.leb_spec 0 (Z.of_nat (length p) - 1));
      [|destruct p; [done|simpl in *; lia]].
    rewrite (run_getitem _ _ _ (pred (length p)) x _ _ _ Hres Hx')
      by (destruct p; [done|simpl; lia]).
    rewrite (run_call_key _ _ _ _ _ _ Hkx).
    by rewrite (run_call_key_raise _ _ _ _ _ _ Hkc). }
  apply Hagree in Hkc as Hv. subst v.
  replace (Z.of_nat (length p) - 1) with (Z.of_nat (pred (length p)))
    by (destruct p; [done|simpl; lia]).
  rewrite (run_shift_loop_stays fuel result _ x cur _ _ _ _
    Hres Hx' Hkx Hkc Hle).
  rewrite (run_setitem _ (p ++ cur :: rest) _ (length p) _ _ _ _ Hres).
  2: { rewrite length_app, length_cons. lia. }
  2: { destruct p; [done|simpl; lia]. }
  rewrite (list_insert_id (p ++ cur :: rest))
    by (by apply list_lookup_middle).
  rewrite (list_insert_id s) by done.
  eapply spec_mono.
  - replace (Z.succ (Z.of_nat (length p)))
      with (Z.of_nat (length (p ++ [cur])))
      by (rewrite length_app; simpl; lia).
    replace (Z.pred (Z.of_nat (length (cur :: rest))))
      with (Z.of_nat (length rest)) by (simpl; lia).
    apply (IH (p ++ [cur])).
    + by rewrite <- app_assoc.
    + by rewrite <- app_assoc.
    + by destruct p.
  - intros st' _ (Hst & t & Hc & Hlen). split; [done|].
    exists (x :: cur :: t). split; [by rewrite Hc, <- !app_assoc|].
    simpl. lia.
Qed.

Lemma insertion_sort_sorted fuel (data : loc) (S : list A) s c :
  s !! data = Some S → Sorted (le_by k) S →
  spec key (insertion_sort key (Datatypes.S fuel) data) (State s c)
    (λ st' r, r = length s ∧ store st' = s ++ [S] ∧
      ∃ t, calls st' = c ++ t ∧ length t = (2 * (length S - 1))%nat).
Proof.
  intros Hd Hsorted. unfold insertion_sort, spec.
  rewrite (run_list_copy _ _ _ _ _ Hd).
  rewrite (run_len _ S) by (by apply list_lookup_middle).
  unfold py_range.
  eapply spec_bind with
    (φ := λ st' _, store st' = s ++ [S] ∧
      ∃ t, calls st' = c ++ t ∧ length t = (2 * (length S - 1))%nat).
  - destruct S as [|a S].
    + apply spec_ret. split; [done|]. exists []. by rewrite app_nil_r.
    + replace (Z.of_nat (length (a :: S)) - 1) with (Z.of_nat (length S))
        by (simpl; lia).
      eapply spec_mono.
      * apply (insertion_loop_sorted fuel (length s) S [a]);
          [by apply list_lookup_middle|done|done].
      * simpl. intros st' _ (Hst & t & Hc & Hlen). split; [done|].
        exists t. split; [done|]. lia.
  - intros st' _ [Hst Hpost]. by apply spec_ret.
Qed.
End InsertionCalls.

(** ** Counting the key calls of merge sort *)

Section MergeCalls.
Context {A K E : Type} `{KeyOrder K}.
Variables (key : A → E + K) (k : A → K).
Hypothesis Hagree : agrees key k.

(** Every round of the merge loop makes two key calls and uses up one
    item; the first round calls the key function on the two heads. *)
Lemma merge_loop_calls fuel :
  ∀ (left right result : loc) (L R Res : list A) (i j : nat) s c,
  s !! left = Some L → s !! right = Some R → s !! result = Some Res →
  left ≠ result → right ≠ result →
  (i ≤ length L)%nat → (j ≤ length R)%nat →
  ((length L - i) + (length R - j) < fuel)%nat →
  spec key
    (merge_loop key fuel left right result (Z.of_nat i) (Z.of_nat j))
    (State s c)
    (λ st' _, ∃ t, calls st' = c ++ t ∧
      (length t ≤ 2 * ((length L - i) + (length R - j)))%nat ∧
      ∀ x y, L !! i = Some x → R !! j = Some y → x ∈ t ∧ y ∈ t).
Proof.
  induction fuel as [|fuel IH];
    intros left right result L R Res i j s c HL HR HRes Hl Hr Hi Hj Hfuel;
    [lia|].
  unfold spec. cbn [merge_loop]. rewrite (run_len _ _ _ _ _ HL).
  destruct (Z.ltb_spec (Z.of_nat i) (Z.of_nat (length L))) as [Hil|Hil].
  2: { exists (State s c), (Ok (Z.of_nat i, Z.of_nat j)). split; [done|].
       exists []. rewrite app_nil_r. simpl. split_and!; [done|lia|].
       intros x y Hx%lookup_lt_Some. lia. }
  rewrite (run_len _ _ _ _ _ HR).
  destruct (Z.ltb_spec (Z.of_nat j) (Z.of_nat (length R))) as [Hjl|Hjl].
  2: { exists (State s c), (Ok (Z.of_nat i, Z.of_nat j)). split; [done|].
       exists []. rewrite app_nil_r. simpl. split_and!; [done|lia|].
       intros x y _ Hy%lookup_lt_Some. lia. }
  destruct (lookup_lt_is_Some_2 L i) as [x Hx]; [lia|].
  destruct (lookup_lt_is_Some_2 R j) as [y Hy]; [lia|].
  rewrite (run_getitem _ _ _ _ _ _ _ _ HL Hx eq_refl).
  destruct (key x) as [e|v] eqn:Hkx.
  { eapply spec_raised; [by apply run_call_key_raise|done]. }
  rewrite (run_call_key _ _ _ _ _ _ Hkx).
  rewrite (run_getitem _ _ _ _ _ _ _ _ HR Hy eq_refl).
  destruct (key y) as [e|w] eqn:Hky.
  { eapply spec_raised; [by apply run_call_key_raise|done]. }
  rewrite (run_call_key _ _ _ _ _ _ Hky).
  assert (result < length s)%nat as Hlt by (by eapply lookup_lt_Some).
  assert (∀ t : list A, x ∈ x :: y :: t ∧ y ∈ x :: y :: t) as Hin.
  { intros t. split; [left|right; left]. }
  destruct (kle v w).
  - rewrite (run_getitem _ _ _ _ _ _ _ _ HL Hx eq_refl).
    rewrite (run_append _ _ _ _ _ _ HRes).
    replace (Z.of_nat i + 1) with (Z.of_nat (S i)) by lia.
    eapply spec_mono.
    + apply (IH left right result L R (Res ++ [x]) (S i) j);
        rewrite ?list_lookup_insert_ne, ?list_lookup_insert_eq by done;
        first [done|lia].
    + intros st' _ (t & Hc & Hlen & _). exists (x :: y :: t).
      split_and!; [by rewrite Hc, <- !app_assoc|simpl; lia|].
      intros x' y' Hx' Hy'. by simplify_eq.
  - rewrite (run_getitem _ _ _ _ _ _ _ _ HR Hy eq_refl).
    rewrite (run_append _ _ _ _ _ _ HRes).
    replace (Z.of_nat j + 1) with (Z.of_nat (S j)) by lia.
    eapply spec_mono.
    + apply (IH left right result L R (Res ++ [y]) i (S j));
        rewrite ?list_lookup_insert_ne, ?list_lookup_insert_eq by done;
        first [done|lia].
    + intros st' _ (t & Hc & Hlen & _). exists (x :: y :: t).
      split_and!; [by rewrite Hc, <- !app_assoc|simpl; lia|].
      intros x' y' Hx' Hy'. by simplify_eq.
Qed.

Lemma _merge_calls fuel (left right : loc) (L R : list A) s c :
  s !! left = Some L → s !! right = Some R →
  (length L + length R < fuel)%nat →
  spec key (_merge key fuel left right) (State s c)
    (λ st' _, ∃ t, calls st' = c ++ t ∧
      (length t ≤ 2 * (length L + length R))%nat ∧
      ∀ x y, L !! 0%nat = Some x → R !! 0%nat = Some y → x ∈ t ∧ y ∈ t).
Proof.
  intros HL HR Hfuel. unfold _merge. unfold spec. rewrite run_alloc.
  assert (left ≠ length s ∧ right ≠ length s) as [Hl Hr].
  { apply lookup_lt_Some in HL, HR. lia. }
  eapply spec_bind.
  { apply spec_conj.
    - apply (merge_loop_spec key k Hagree fuel left right (length s)
        L R [] 0 0); first
        [ by apply lookup_app_l_Some | by apply list_lookup_middle
        | done | lia ].
    - apply (merge_loop_calls fuel left right (length s) L R [] 0 0); first
        [ by apply lookup_app_l_Some | by apply list_lookup_middle
        | done | lia ]. }
  intros [s' c'] [i' j']
    [(pre & i2 & j2 & [= -> ->] & Hi2 & Hj2 & Hst & Hpre)
     (t & Hc & Hlen & Hcov)].
  simpl in Hst, Hc. subst s' c'. rewrite insert_at_end. simpl.
  unfold spec.
  rewrite (run_slice left L) by (by apply lookup_app_l_Some).
  rewrite py_slice_from by done.
  rewrite (run_extend (length s) (length (s ++ [pre])) pre (drop i2 L)).
  2: { rewrite <- app_assoc. by apply list_lookup_middle. }
  2: { by apply list_lookup_middle. }
  rewrite <- app_assoc. simpl. rewrite insert_at_end.
  rewrite (run_slice right R) by (by apply lookup_app_l_Some).
  rewrite py_slice_from by done.
  rewrite (run_extend (length s) _ (pre ++ drop i2 L) (drop j2 R)).
  2: { rewrite <- app_assoc. by apply list_lookup_middle. }
  2: { by apply list_lookup_middle. }
  eexists _, _. split; [done|]. simpl. exists t.
  split_and!; [done|lia|done].
Qed.

(** Each half of a list of at least two items needs one level less. *)
Lemma log2_up_half (n b : nat) :
  (2 ≤ n)%nat → (2 * b ≤ n + 1)%nat →
  (S (Nat.log2_up b) ≤ Nat.log2_up n)%nat.
Proof.
  intros Hn Hb.
  destruct (Nat.log2_up_spec n ltac:(lia)) as [_ Hup].
  pose proof (Nat.log2_up_pos n ltac:(lia)) as Hpos.
  destruct (Nat.log2_up n) as [|l]; [lia|].
  apply le_n_S. destruct b as [|b]; [rewrite Nat.log2_up_eqn0; lia|].
  apply Nat.log2_up_le_pow2; [lia|].
  rewrite Nat.pow_succ_r' in Hup. lia.
Qed.

Lemma merge_sort_calls fuel :
  ∀ (data : loc) (S : list A) s c,
  s !! data = Some S → (length S + 2 ≤ fuel)%nat →
  spec key (merge_sort key fuel data) (State s c)
    (λ st' _, ∃ t, calls st' = c ++ t ∧
      (length t ≤ 2 * length S * Nat.log2_up (length S))%nat ∧
      ((2 ≤ length S)%nat → ∀ x, x ∈ S → x ∈ t)).
Proof.
  induction fuel as [|fuel IH]; intros data S s c Hd Hfuel; [lia|].
  cbn [merge_sort]. unfold spec. rewrite (run_len _ _ _ _ _ Hd).
  destruct (Z.leb_spec (Z.of_nat (length S)) 1) as [Hn|Hn].
  { unfold list_copy. rewrite (run_read _ _ _ _ _ Hd).
    eexists _, _. split; [done|]. exists []. simpl. rewrite app_nil_r.
    split_and!; [done|lia|]. intros; lia. }
  rewrite <- (Nat2Z.inj_div _ 2). set (m := (length S / 2)%nat).
  assert (0 < m < length S ∧ 2 * m ≤ length S ≤ 2 * m + 1)%nat
    as [Hm Hhalf].
  { pose proof (Nat.div_mod_eq (length S) 2) as Hdm.
    pose proof (Nat.mod_upper_bound (length S) 2 ltac:(lia)) as Hmb.
    fold m in Hdm. split; [|lia]. subst m. split.
    - apply Nat.div_str_pos. lia.
    - apply Nat.div_lt; lia. }
  clearbody m.
  rewrite (run_slice _ _ _ _ _ _ _ Hd), py_slice_to by lia.
  eapply spec_bind.
  { apply spec_conj.
    - apply (merge_sort_spec key k Hagree fuel (length s) (take m S));
        [by apply list_lookup_middle|].
      rewrite length_take. lia.
    - apply (IH (length s) (take m S)); [by apply list_lookup_middle|].
      rewrite length_take. lia. }
  intros [s1 c1] left
    [(outL & Hpre1 & Hge1 & HoL & HsL) (t1 & Hc1 & Hlen1 & Hcov1)].
  simpl in *. subst c1.
  assert (s `prefix_of` s1) as Hpre1' by (by eapply prefix_app_l).
  unfold spec.
  rewrite (run_slice data S) by (by eapply prefix_lookup_Some).
  rewrite py_slice_from by lia.
  eapply spec_bind.
  { apply spec_conj.
    - apply (merge_sort_spec key k Hagree fuel (length s1) (drop m S));
        [by apply list_lookup_middle|].
      rewrite length_drop. lia.
    - apply (IH (length s1) (drop m S)); [by apply list_lookup_middle|].
      rewrite length_drop. lia. }
  intros [s2 c2] right
    [(outR & Hpre2 & Hge2 & HoR & HsR) (t2 & Hc2 & Hlen2 & Hcov2)].
  simpl in *. subst c2.
  assert (s1 `prefix_of` s2) as Hpre2' by (by eapply prefix_app_l).
  destruct HsL as (HpL & _), HsR as (HpR & _).
  assert (length outL = m ∧ length outR = (length S - m)%nat) as [HlL HlR].
  { rewrite <- HpL, <- HpR, length_take, length_drop. lia. }
  eapply spec_mono.
  { apply (_merge_calls fuel left right outL outR).
    - by eapply prefix_lookup_Some.
    - done.
    - lia. }
  intros st' _ (t3 & Hc3 & Hlen3 & Hcov3). exists (t1 ++ t2 ++ t3).
  split; [by rewrite Hc3, <- !app_assoc|].
  rewrite length_take, Nat.min_l in Hlen1 by lia.
  rewrite length_take, Nat.min_l in Hcov1 by lia.
  rewrite length_drop in Hlen2, Hcov2. split.
  - rewrite !length_app.
    pose proof (log2_up_half (length S) m ltac:(lia) ltac:(lia)) as Hla.
    pose proof (log2_up_half (length S) (length S - m) ltac:(lia)
      ltac:(lia)) as Hlb.
    destruct (Nat.log2_up (length S)) as [|l]; [lia|].
    assert (2 * m * Nat.log2_up m ≤ 2 * m * l)%nat
      by (apply Nat.mul_le_mono_l; lia).
    assert (2 * (length S - m) * Nat.log2_up (length S - m)
            ≤ 2 * (length S - m) * l)%nat
      by (apply Nat.mul_le_mono_l; lia).
    nia.
  - intros _ x Hx. rewrite <- (take_drop m S) in Hx.
    destruct outL as [|a outL]; [simpl in HlL; lia|].
    destruct outR as [|b outR]; [simpl in HlR; lia|].
    destruct (Hcov3 a b eq_refl eq_refl) as [Ha Hb].
    apply elem_of_app in Hx as [Hx|Hx].
    + destruct (decide (2 ≤ m)%nat) as [H2|H1].
      { apply elem_of_app. left. by apply Hcov1. }
      assert (outL = []) as -> by (destruct outL; [done|simpl in HlL; lia]).
      rewrite HpL in Hx. apply list_elem_of_singleton in Hx as ->.
      rewrite !elem_of_app. auto.
    + destruct (decide (2 ≤ length S - m)%nat) as [H2|H1].
      { rewrite !elem_of_app. right. left. by apply Hcov2. }
      assert (outR = []) as -> by (destruct outR; [done|simpl in HlR; lia]).
      rewrite HpR in Hx. apply list_elem_of_singleton in Hx as ->.
      rewrite !elem_of_app. auto.
Qed.
End MergeCalls.

(** X10. [merge_sort] calls the key function at most
    [2 * n * ceil(log2 n)] times on a list of [n] items: two calls for
    each comparison, and [O(n log n)] comparisons. *)
Theorem merge_sort_calls_n_log_n {A K E : Type} `{KeyOrder K}
    (k : A → K) (fuel : nat) (data : loc) (S : list A) (st : state A) :
  store st !! data = Some S → (length S + 2 ≤ fuel)%nat →
  ∃ st' r,
    merge_sort (pure_key E k) fuel data st = (st', Ok r) ∧
    (length (new_calls st st')
      ≤ 2 * length S * Nat.log2_up (length S))%nat.
Proof.
  destruct st as [s c]. simpl. intros Hd Hfuel.
  destruct (spec_pure_ok (E:=E) k _ _ _
    (merge_sort_calls _ k (agrees_pure k) fuel data S s c Hd Hfuel))
    as (st' & r & Hrun & t & Hc & Hlen & _).
  exists st', r. split; [done|]. unfold new_calls. simpl.
  by rewrite Hc, drop_app_length.
Qed.

Lemma merge_sort_calls_n_log_n_witness :
  let st := one_list unsorted in
  store st !! 0%nat = Some unsorted ∧ (length unsorted + 2 ≤ 6)%nat ∧
  ∃ st' r,
    merge_sort (pure_key unit snd) 6 0%nat st = (st', Ok r) ∧
    (length (new_calls st st')
      ≤ 2 * length unsorted * Nat.log2_up (length unsorted))%nat.
Proof.
  intros st. split; [reflexivity|]. split; [simpl; lia|].
  apply (merge_sort_calls_n_log_n (E:=unit) snd 6 0%nat unsorted st);
    [reflexivity|simpl; lia].
Defined.

(** X11. Best case of [insertion_sort]: on a list of [n] items already in
    non-decreasing key order it makes exactly [2 * (n - 1)] key calls
    (none when the list is empty), every inner loop stopping after one
    round, and it returns a copy of the input. *)
Theorem insertion_sort_best_case {A K E : Type} `{KeyOrder K}
    (k : A → K) (fuel : nat) (data : loc) (S : list A) (st : state A) :
  store st !! data = Some S → ordered k S → (1 ≤ fuel)%nat →
  ∃ st' r,
    insertion_sort (pure_key E k) fuel data st = (st', Ok r) ∧
    store st' !! r = Some S ∧
    length (new_calls st st') = (2 * (length S - 1))%nat.
Proof.
  destruct st as [s c]. simpl. intros Hd Hord%ordered_Sorted Hfuel.
  destruct fuel as [|fuel]; [lia|].
  destruct (spec_pure_ok (E:=E) k _ _ _
    (insertion_sort_sorted _ k (agrees_pure k) fuel data S s c Hd Hord))
    as (st' & r & Hrun & -> & Hst & t & Hc & Hlen).
  exists st', (length s). split_and!; [done| |].
  - rewrite Hst. by apply list_lookup_middle.
  - unfold new_calls. simpl. by rewrite Hc, drop_app_length.
Qed.

Lemma insertion_sort_best_case_witness :
  let st := one_list odds in
  store st !! 0%nat = Some odds ∧ ordered id odds ∧ (1 ≤ 1)%nat ∧
  ∃ st' r,
    insertion_sort (pure_key unit id) 1 0%nat st = (st', Ok r) ∧
    store st' !! r = Some odds ∧
    length (new_calls st st') = (2 * (length odds - 1))%nat.
Proof.
  intros st.
  assert (ordered id odds) as Hodds.
  { intros i x y Hx Hy.
    do 5 (destruct i as [|i]; [by simplify_eq/=|]). done. }
  split; [reflexivity|]. split; [exact Hodds|]. split; [lia|].
  apply (insertion_sort_best_case (E:=unit) id 1 0%nat odds st);
    [reflexivity|exact Hodds|lia].
Defined.

(** X12. Worst case of [insertion_sort]: on any list of [n] items it
    makes at most [n * (n - 1)] key calls. *)
Theorem insertion_sort_worst_case {A K E : Type} `{KeyOrder K}
    (k : A → K) (fuel : nat) (data : loc) (S : list A) (st : state A) :
  store st !! data = Some S → (length S + 2 ≤ fuel)%nat →
  ∃ st' r,
    insertion_sort (pure_key E k) fuel data st = (st', Ok r) ∧
    (length (new_calls st st') ≤ length S * (length S - 1))%nat.
Proof.
  destruct st as [s c]. simpl. intros Hd Hfuel.
  destruct (spec_pure_ok (E:=E) k _ _ _
    (insertion_sort_calls _ k (agrees_pure k) fuel data S s c Hd Hfuel))
    as (st' & r & Hrun & t & Hc & Hlen & _).
  exists st', r. split; [done|]. unfold new_calls. simpl.
  by rewrite Hc, drop_app_length.
Qed.

Lemma insertion_sort_worst_case_witness :
  let st := one_list unsorted in
  store st !! 0%nat = Some unsorted ∧ (length unsorted + 2 ≤ 6)%nat ∧
  ∃ st' r,
    insertion_sort (pure_key unit snd) 6 0%nat st = (st', Ok r) ∧
    (length (new_calls st st') ≤ length unsorted * (length unsorted - 1))%nat.
Proof.
  intros st. split; [reflexivity|]. split; [simpl; lia|].
  apply (insertion_sort_worst_case (E:=unit) snd 6 0%nat unsorted st);
    [reflexivity|simpl; lia].
Defined.

(** X13. On a list of at least two items both sorts evaluate the key of
    every item, so a key function that raises on any one item of the list
    makes the sort end with an exception of the key function: no list is
    returned. *)
Theorem bad_item_fails_sort {A K E : Type} `{KeyOrder K} `{Inhabited K}
    (key : A → E + K) (fuel : nat) (data : loc) (S : list A)
    (st : state A) (x : A) (e : E) :
  store st !! data = Some S → (length S + 2 ≤ fuel)%nat →
  (2 ≤ length S)%nat → x ∈ S → key x = inl e →
  (∃ e', (merge_sort key fuel data st).2 = Raise (KeyRaised e')) ∧
  (∃ e', (insertion_sort key fuel data st).2 = Raise (KeyRaised e')).
Proof.
  destruct st as [s c]. simpl. intros Hd Hfuel Hlen Hx Hk.
  pose proof (agrees_key_view key inhabitant) as Hagree.
  assert (∀ (m : @M A E loc),
    disciplined key m →
    spec key m (State s c) (λ st' _, ∃ t, calls st' = c ++ t ∧ x ∈ t) →
    ∃ e', (m (State s c)).2 = Raise (KeyRaised e')) as Hfail.
  { intros m Hdisc (st' & out & Hrun & Hout).
    destruct (Hdisc (State s c)) as (t' & Hc' & Hmatch).
    rewrite Hrun in Hc', Hmatch |- *. simpl in *.
    destruct out as [r|e0|]; [|by destruct Hout as (? & e' & -> & _); eauto
                              |done].
    destruct Hout as (t & Hc & Hin). rewrite Hc in Hc'.
    apply app_inv_head in Hc' as ->.
    simpl in Hmatch. rewrite Forall_forall in Hmatch.
    destruct (Hmatch x Hin) as [v Hv].
    congruence. }
  split.
  - apply Hfail; [apply disciplined_merge_sort|].
    eapply spec_mono;
      [apply (merge_sort_calls key _ Hagree fuel data S s c Hd Hfuel)|].
    intros st' _ (t & Hc & _ & Hcov). exists t. split; [done|].
    by apply Hcov.
  - apply Hfail; [apply disciplined_insertion_sort|].
    eapply spec_mono;
      [apply (insertion_sort_calls key _ Hagree fuel data S s c Hd Hfuel)|].
    intros st' _ (t & Hc & _ & Hcov). exists t. split; [done|].
    by apply Hcov.
Qed.

Lemma bad_item_fails_sort_witness :
  let st := one_list unsorted in
  let x := ("z"%string, 3) in
  store st !! 0%nat = Some unsorted ∧ (length unsorted + 2 ≤ 6)%nat ∧
  (2 ≤ length unsorted)%nat ∧ x ∈ unsorted ∧
  failing_key x = inl "bad item"%string ∧
  (∃ e', (merge_sort failing_key 6 0%nat st).2 = Raise (KeyRaised e')) ∧
  (∃ e', (insertion_sort failing_key 6 0%nat st).2 = Raise (KeyRaised e')).
Proof.
  intros st x.
  assert (x ∈ unsorted) as Hx.
  { apply list_elem_of_In. vm_compute. tauto. }
  split; [reflexivity|]. split; [simpl; lia|]. split; [simpl; lia|].
  split; [exact Hx|]. split; [reflexivity|].
  apply (bad_item_fails_sort failing_key 6 0%nat unsorted st x
    "bad item"%string); [reflexivity|simpl; lia|simpl; lia|exact Hx|].
  reflexivity.
Defined.

(** ** The order of the input and the keys of the output *)

Section KeysOfOutput.
Context {A K E : Type} `{KeyOrder K}.
Variable k : A → K.

Lemma sorted_keys_unique (l1 l2 : list A) :
  Sorted (le_by k) l1 → Sorted (le_by k) l2 → l1 ≡ₚ l2 →
  k <$> l1 = k <$> l2.
Proof.
  intros H1 H2 Hperm.
  assert (Transitive (λ a b : K, kle a b = true)) as Htrans.
  { intros a b c. apply kle_trans. }
  apply (Sorted_unique_strong (λ a b : K, kle a b = true)).
  - intros a b _ _. apply kle_antisym.
  - by apply (Sorted_fmap k (le_by k)).
  - by apply (Sorted_fmap k (le_by k)).
  - by rewrite Hperm.
Qed.

Lemma insertion_sort_one_list key fuel (data : loc) (S : list A) s c :
  agrees key k →
  s !! data = Some S → (length S + 2 ≤ fuel)%nat →
  spec (E:=E) key (insertion_sort key fuel data) (State s c)
    (λ st' r, r = length s ∧ ∃ out, store st' = s ++ [out] ∧ sorts k S out).
Proof.
  intros Hagree Hd Hfuel. unfold insertion_sort, spec.
  rewrite (run_list_copy _ _ _ _ _ Hd).
  rewrite (run_len _ S) by (by apply list_lookup_middle).
  unfold py_range.
  eapply spec_bind with
    (φ := λ st' _, ∃ out, store st' = s ++ [out] ∧ sorts k S out).
  - destruct S as [|a S].
    + apply spec_ret. exists []. split; [done|]. apply sorts_short.
      simpl. lia.
    + replace (Z.of_nat (length (a :: S)) - 1) with (Z.of_nat (length S))
        by (simpl; lia).
      eapply spec_mono.
      * apply (insertion_loop_spec key k Hagree fuel (length s) S [a]).
        -- by apply list_lookup_middle.
        -- by repeat constructor.
        -- simpl in *. lia.
      * simpl. intros st' _ (out & Hst & Hsorts).
        rewrite insert_at_end in Hst. eauto.
  - intros st' _ Hpost. by apply spec_ret.
Qed.
End KeysOfOutput.

(** X14. The keys of the output depend only on which items the input
    holds, not on their order: sorting two lists that are permutations of
    one another, with either sort, gives outputs with the same key
    projection. *)
Theorem sorts_ignore_input_order {A K E : Type} `{KeyOrder K}
    (k : A → K) (fuel : nat) (data1 data2 : loc) (S1 S2 : list A)
    (st : state A) :
  store st !! data1 = Some S1 → store st !! data2 = Some S2 →
  S1 ≡ₚ S2 → (length S1 + 2 ≤ fuel)%nat →
  ∃ sta ra outa stb rb outb stc rc outc,
    merge_sort (pure_key E k) fuel data1 st = (sta, Ok ra) ∧
    store sta !! ra = Some outa ∧
    merge_sort (pure_key E k) fuel data2 st = (stb, Ok rb) ∧
    store stb !! rb = Some outb ∧
    insertion_sort (pure_key E k) fuel data2 st = (stc, Ok rc) ∧
    store stc !! rc = Some outc ∧
    k <$> outa = k <$> outb ∧ k <$> outa = k <$> outc.
Proof.
  intros Hd1 Hd2 Hperm Hfuel.
  assert (length S2 + 2 ≤ fuel)%nat as Hfuel2 by (by rewrite <- Hperm).
  destruct (merge_sort_pure (E:=E) k fuel data1 S1 st Hd1 Hfuel)
    as (sta & ra & outa & Hruna & _ & _ & Hra & Hpa & Hoa%ordered_Sorted & _).
  destruct (merge_sort_pure (E:=E) k fuel data2 S2 st Hd2 Hfuel2)
    as (stb & rb & outb & Hrunb & _ & _ & Hrb & Hpb & Hob%ordered_Sorted & _).
  destruct (insertion_sort_pure (E:=E) k fuel data2 S2 st Hd2 Hfuel2)
    as (stc & rc & outc & Hrunc & _ & _ & Hrc & Hpc & Hoc%ordered_Sorted & _).
  exists sta, ra, outa, stb, rb, outb, stc, rc, outc.
  split_and!; [done..| |].
  - apply sorted_keys_unique; [done..|]. by rewrite <- Hpa, <- Hpb.
  - apply sorted_keys_unique; [done..|]. by rewrite <- Hpa, <- Hpc.
Qed.

Lemma sorts_ignore_input_order_witness :
  let S1 := [3; 1; 2] in
  let S2 := [1; 3; 2] in
  let st := State [S1; S2] [] in
  store st !! 0%nat = Some S1 ∧ store st !! 1%nat = Some S2 ∧
  S1 ≡ₚ S2 ∧ (length S1 + 2 ≤ 5)%nat ∧
  ∃ sta ra outa stb rb outb stc rc outc,
    merge_sort (pure_key unit id) 5 0%nat st = (sta, Ok ra) ∧
    store sta !! ra = Some outa ∧
    merge_sort (pure_key unit id) 5 1%nat st = (stb, Ok rb) ∧
    store stb !! rb = Some outb ∧
    insertion_sort (pure_key unit id) 5 1%nat st = (stc, Ok rc) ∧
    store stc !! rc = Some outc ∧
    id <$> outa = id <$> outb ∧ id <$> outa = id <$> outc.
Proof.
  intros S1 S2 st.
  assert (S1 ≡ₚ S2) as Hperm.
  { apply Permutation_swap. }
  split; [reflexivity|]. split; [reflexivity|]. split; [exact Hperm|].
  split; [simpl; lia|].
  apply (sorts_ignore_input_order (E:=unit) id 5 0%nat 1%nat S1 S2 st);
    [reflexivity|reflexivity|exact Hperm|simpl; lia].
Defined.

(** X15. [insertion_sort] creates exactly one list, the copy it sorts in
    place and returns: after the call the store is the old one followed by
    the result. *)
Theorem insertion_sort_allocates_once {A K E : Type} `{KeyOrder K}
    (k : A → K) (fuel : nat) (data : loc) (S : list A) (st : state A) :
  store st !! data = Some S → (length S + 2 ≤ fuel)%nat →
  ∃ st' out,
    insertion_sort (pure_key E k) fuel data st
      = (st', Ok (length (store st))) ∧
    store st' = store st ++ [out] ∧ S ≡ₚ out.
Proof.
  destruct st as [s c]. simpl. intros Hd Hfuel.
  destruct (spec_pure_ok (E:=E) k _ _ _
    (insertion_sort_one_list k _ fuel data S s c (agrees_pure k) Hd Hfuel))
    as (st' & r & Hrun & -> & out & Hst & Hperm & _).
  by exists st', out.
Qed.

Lemma insertion_sort_allocates_once_witness :
  let st := one_list unsorted in
  store st !! 0%nat = Some unsorted ∧ (length unsorted + 2 ≤ 6)%nat ∧
  ∃ st' out,
    insertion_sort (pure_key unit snd) 6 0%nat st
      = (st', Ok (length (store st))) ∧
    store st' = store st ++ [out] ∧ unsorted ≡ₚ out.
Proof.
  intros st. split; [reflexivity|]. split; [simpl; lia|].
  apply (insertion_sort_allocates_once (E:=unit) snd 6 0%nat unsorted st);
    [reflexivity|simpl; lia].
Defined.
